(** * from_json: nutrient sub-parser and row expander of [Main.py]

    A shallow embedding of [parse_nutrients], [build_row],
    [build_rows_for_product] and the row loop of [convert_json_to_csv],
    together with the part of Python's [re] and [str] that they call.

    Python strings are sequences of Unicode code points; a code point is
    modelled as an [N], a string as a list of them.  A product (one JSON
    object with string values) and an output row (the dict built by
    [build_row]) are finite maps from strings to strings. *)

From Stdlib Require Import NArith Ascii String.
From stdpp Require Import base list gmap.

#[local] Open Scope N_scope.
#[local] Set Warnings "-clear-no-such-hyp".

(** ** Python [str] *)

Module Str.

Abbreviation char := N (only parsing).
Abbreviation str := (list N) (only parsing).

(** An ASCII literal as a Python string. *)
Definition py (s : string) : str :=
  List.map N_of_ascii (list_ascii_of_string s).

Definition COMMA : char := 44.
Definition LPAREN : char := 40.
Definition RPAREN : char := 41.
Definition LF : char := 10.

(** [str.isspace] on one code point: the table of
    [_PyUnicode_IsWhitespace]. *)
Definition is_space (c : char) : bool :=
  ((9 <=? c) && (c <=? 13)) || ((28 <=? c) && (c <=? 32))
  || (c =? 133) || (c =? 160) || (c =? 5760)
  || ((8192 <=? c) && (c <=? 8202))
  || (c =? 8232) || (c =? 8233) || (c =? 8239) || (c =? 8287)
  || (c =? 12288).

(** [str.lstrip()], [str.rstrip()], [str.strip()] with no argument. *)
Fixpoint lstrip (s : str) : str :=
  match s with
  | c :: t => if is_space c then lstrip t else s
  | [] => []
  end.

Definition rstrip (s : str) : str := rev (lstrip (rev s)).

Definition strip (s : str) : str := rstrip (lstrip s).

(** Neither the first nor the last code point is whitespace. *)
Definition no_outer_space (s : str) : Prop :=
  (∀ c, head s = Some c → is_space c = false)
  ∧ (∀ c, last s = Some c → is_space c = false).

End Str.
Export Str.

(** ** The fragment of [re] used by the two patterns *)

Module Re.

(** What one pattern character can stand for. *)
Inductive cset :=
| Dot                      (* [.], no flags: anything but a line feed *)
| NoneOf (cs : list N).    (* [[^...]]: anything not listed *)

Definition cs_match (cs : cset) (c : N) : bool :=
  match cs with
  | Dot => negb (c =? LF)
  | NoneOf l => negb (existsb (N.eqb c) l)
  end.

Inductive greed := Greedy | Lazy.

Inductive regex :=
| Lit (c : N)                               (* an escaped literal *)
| Rep (g : greed) (min : nat) (cs : cset)   (* [x*], [x+], [x*?] *)
| Cat (r1 r2 : regex)
| Grp (n : nat) (r : regex).                (* capturing group [n] *)

(** The ways a repetition can consume a prefix of [s], as the remaining
    inputs, in the order the backtracking engine tries them: a greedy
    repetition the longest first, a lazy one the shortest first. *)
Fixpoint rep (g : greed) (cs : cset) (min : nat) (s : list N)
  : list (list N) :=
  let stop := match min with O => [s] | S _ => [] end in
  let more := match s with
              | c :: t => if cs_match cs c then rep g cs (pred min) t else []
              | [] => []
              end in
  match g with
  | Greedy => more ++ stop
  | Lazy => stop ++ more
  end.

(** Captured groups, the most recent binding first. *)
Definition caps := list (nat * list N).

Fixpoint group (n : nat) (c : caps) : list N :=
  match c with
  | (k, v) :: c' => if Nat.eqb k n then v else group n c'
  | [] => []
  end.

(** All the matches of [r] at the start of the input, in the engine's
    order of preference; each with its captures and the input left. *)
Fixpoint run (r : regex) (st : caps * list N) : list (caps * list N) :=
  match r with
  | Lit c =>
      match st.2 with
      | x :: t => if x =? c then [(st.1, t)] else []
      | [] => []
      end
  | Rep g min cs => (λ s', (st.1, s')) <$> rep g cs min st.2
  | Cat r1 r2 => run r1 st ≫= run r2
  | Grp n r =>
      (λ st', ((n, take (length st.2 - length st'.2) st.2) :: st'.1, st'.2))
        <$> run r st
  end.

(** [pattern.match(s)]: the preferred match at the start of [s], as its
    captures and the input after the match; [None] when there is none. *)
Definition re_match (r : regex) (s : list N) : option (caps * list N) :=
  head (run r ([], s)).

(** [pattern.findall(s)] for a pattern with one group: group 1 of each
    match, scanning left to right; after a match the scan resumes at
    its end, otherwise one code point further.  [skip] counts the code
    points of the last match that are still to be stepped over. *)
Fixpoint findall_from (r : regex) (skip : nat) (s : list N)
  : list (list N) :=
  match skip, s with
  | S k, _ :: t => findall_from r k t
  | S _, [] => []
  | O, _ =>
      match re_match r s with
      | Some (c, rest) =>
          group 1 c ::
            match s with
            | _ :: t => findall_from r (pred (length s - length rest)) t
            | [] => []
            end
      | None =>
          match s with
          | _ :: t => findall_from r 0 t
          | [] => []
          end
      end
  end.

Definition findall (r : regex) (s : list N) : list (list N) :=
  findall_from r 0 s.

End Re.
Export Re.

(** ** [Main.py] *)

(** [NUTRIENT_ITEM_REGEX = re.compile(r'([^,]+\([^)]*\))')] *)
Definition NUTRIENT_ITEM_REGEX : regex :=
  Grp 1 (Cat (Rep Greedy 1 (NoneOf [COMMA]))
        (Cat (Lit LPAREN)
        (Cat (Rep Greedy 0 (NoneOf [RPAREN]))
             (Lit RPAREN)))).

(** [NUTRIENT_NAME_AND_QTY_REGEX = re.compile(r'(.*?)\((.*?)\)')] *)
Definition NUTRIENT_NAME_AND_QTY_REGEX : regex :=
  Cat (Grp 1 (Rep Lazy 0 Dot))
  (Cat (Lit LPAREN)
  (Cat (Grp 2 (Rep Lazy 0 Dot))
       (Lit RPAREN))).

(** Truth value of a string or [None]: [None] and the empty string are
    false. *)
Definition truthy (x : option (list N)) : bool :=
  match x with
  | Some (_ :: _) => true
  | _ => false
  end.

(** [x or d]; the code has it with the empty string for [d]. *)
Definition py_or (x : option (list N)) (d : list N) : list N :=
  if truthy x then default d x else d.

Definition parse_nutrients (nutrient_str : option (list N))
  : list (list N * list N) :=
  let items := findall NUTRIENT_ITEM_REGEX (py_or nutrient_str []) in
  let results := [] in
  foldl (λ results item,
           let item := strip item in
           match re_match NUTRIENT_NAME_AND_QTY_REGEX item with
           | Some (c, _) =>
               let nutrient_name := strip (group 1 c) in
               let quantity := strip (group 2 c) in
               results ++ [(nutrient_name, quantity)]
           | None => results ++ [(item, [])]
           end)
    results items.

(** The entry that one turn of that loop appends for [item]. *)
Definition entry_of_item (item : list N) : list N * list N :=
  match re_match NUTRIENT_NAME_AND_QTY_REGEX (strip item) with
  | Some (c, _) => (strip (group 1 c), strip (group 2 c))
  | None => (strip item, [])
  end.

(** [COLUMN_MAPPING]: output column, and the product key it is filled
    from ([None] for the two columns filled from the nutrient list). *)
Definition COLUMN_MAPPING : list (list N * option (list N)) :=
  [ (py "Product Name", Some (py "Product Name"));
    (py "Label Format", Some (py "Label Format"));
    (py "SKU", Some (py "SKU"));
    (py "Product ID", Some (py "Product ID"));
    (py "Size", Some (py "Size"));
    (py "#servper_Cont", Some (py "Servings per Container"));
    (py "ServingSz", Some (py "Serving Size"));
    (py "Kcal", Some (py "Calories"));
    (py "Calories from Fat from Saturated",
      Some (py "Calories from Saturated Fat"));
    (py "Nutrient", None);
    (py "Quantity", None);
    (py "Percent Allowance", Some (py "Percent Allowance"));
    (py "Comments", Some (py "Comments"));
    (py "Ingredients", Some (py "Ingredients"));
    (py "Claims", Some (py "Claims"));
    (py "Suggested Use", Some (py "Suggested Use"));
    (py "Warnings", Some (py "Warnings"));
    (py "Origin", Some (py "Origin"));
    (py "Storage", Some (py "Storage"));
    (py "Weight", Some (py "Weight")) ].

(** [d.get(key, dflt)] on a dict of strings. *)
Definition dict_get (d : gmap (list N) (list N)) (key dflt : list N)
  : list N :=
  default dflt (d !! key).

(** One turn of the loop of [build_row]: the assignment to [row[csv_col]]. *)
Definition set_column (product_data : gmap (list N) (list N))
    (nutrient_name quantity : list N) (is_first_row : bool)
    (row : gmap (list N) (list N)) (col : list N * option (list N))
  : gmap (list N) (list N) :=
  let '(csv_col, json_key) := col in
  if decide (csv_col = py "Nutrient") then <[csv_col := nutrient_name]> row
  else if decide (csv_col = py "Quantity") then <[csv_col := quantity]> row
  else if is_first_row && truthy json_key
       then <[csv_col := dict_get product_data (default [] json_key) []]> row
       else <[csv_col := []]> row.

Definition build_row (product_data : gmap (list N) (list N))
    (nutrient_name quantity : list N) (is_first_row : bool)
  : gmap (list N) (list N) :=
  foldl (set_column product_data nutrient_name quantity is_first_row)
    ∅ COLUMN_MAPPING.

(** [enumerate(l)] *)
Definition enumerate {A} (l : list A) : list (nat * A) :=
  zip (seq 0 (length l)) l.

Definition build_rows_for_product (product : gmap (list N) (list N))
  : list (gmap (list N) (list N)) :=
  let rows := [] in
  let nutrient_pairs :=
    parse_nutrients (Some (dict_get product (py "Nutrient") [])) in
  match nutrient_pairs with
  | [] => rows ++ [build_row product [] [] true]
  | _ :: _ =>
      foldl (λ rows '(i, (nut_name, nut_qty)),
               let is_first := Nat.eqb i 0 in
               rows ++ [build_row product nut_name nut_qty is_first])
        rows (enumerate nutrient_pairs)
  end.

(** The records handed to the CSV writer by [convert_json_to_csv], each the
    list of its cells: [writeheader] writes the field names, [writerow]
    the row's value for every field name in turn.  [data] is what
    [json.load] returned; opening the files, quoting and the final [print]
    are left out. *)
Definition writerow (fieldnames : list (list N))
    (csvfile : list (list (list N))) (row : gmap (list N) (list N))
  : list (list (list N)) :=
  csvfile ++ [(λ k, dict_get row k []) <$> fieldnames].

Definition convert_json_to_csv (data : list (gmap (list N) (list N)))
  : list (list (list N)) :=
  let csv_headers := COLUMN_MAPPING.*1 in
  let csvfile := [] ++ [csv_headers] in
  foldl (λ csvfile product,
           let product_rows := build_rows_for_product product in
           foldl (writerow csv_headers) csvfile product_rows)
    csvfile data.


(** *** Calls as programs on the interpreter state *)

(** The module-level names that the functions read. *)
Record module_state := {
  g_COLUMN_MAPPING : list (list N * option (list N));
  g_NUTRIENT_ITEM_REGEX : regex;
  g_NUTRIENT_NAME_AND_QTY_REGEX : regex
}.

(** The bindings after the module's top-level assignments. *)
Definition module_init : module_state :=
  {| g_COLUMN_MAPPING := COLUMN_MAPPING;
     g_NUTRIENT_ITEM_REGEX := NUTRIENT_ITEM_REGEX;
     g_NUTRIENT_NAME_AND_QTY_REGEX := NUTRIENT_NAME_AND_QTY_REGEX |}.

(** What a call can see and change: the module's bindings and the list
    objects that exist, each at its address.  The only objects that
    [parse_nutrients] makes or changes are lists of entries. *)
Record py_state := {
  st_globals : module_state;
  st_heap : list (list (list N * list N))
}.

(** Programs that read and change the state. *)
Definition prog (A : Type) : Type := py_state → A * py_state.

Definition ret {A} (a : A) : prog A := λ σ, (a, σ).

Definition bind {A B} (m : prog A) (k : A → prog B) : prog B :=
  λ σ, let '(a, σ') := m σ in k a σ'.

Notation "x <~ m ;; k" := (bind m (λ x, k))
  (at level 100, m at next level, k at level 200, right associativity).

(** Reading a module-level name. *)
Definition read_global {A} (name : module_state → A) : prog A :=
  λ σ, (name (st_globals σ), σ).

(** [[]]: a new, empty list object; the value is its address. *)
Definition new_list : prog nat :=
  λ σ, (length (st_heap σ),
        {| st_globals := st_globals σ; st_heap := st_heap σ ++ [[]] |}).

(** [l.append(v)]: the object at address [l] is changed in place. *)
Definition list_append (l : nat) (v : list N * list N) : prog unit :=
  λ σ, (tt, {| st_globals := st_globals σ;
               st_heap := alter (λ obj, obj ++ [v]) l (st_heap σ) |}).

(** [for a in l: body] *)
Fixpoint for_each {A} (l : list A) (body : A → prog unit) : prog unit :=
  match l with
  | [] => ret tt
  | a :: l' => _ <~ body a ;; for_each l' body
  end.

(** [parse_nutrients] as the program it is: the two patterns are read from
    the module, [results] is a new list object, every turn of the loop
    appends to that object, and the value returned is the object. *)
Definition call_parse_nutrients (nutrient_str : option (list N)) : prog nat :=
  item_regex <~ read_global g_NUTRIENT_ITEM_REGEX ;;
  let items := findall item_regex (py_or nutrient_str []) in
  results <~ new_list ;;
  _ <~ for_each items (λ item,
         let item := strip item in
         name_and_qty_regex <~ read_global g_NUTRIENT_NAME_AND_QTY_REGEX ;;
         match re_match name_and_qty_regex item with
         | Some (c, _) =>
             let nutrient_name := strip (group 1 c) in
             let quantity := strip (group 2 c) in
             list_append results (nutrient_name, quantity)
         | None => list_append results (item, [])
         end) ;;
  ret results.

(** *** Notions used in the statements *)

(** The strings of [items] occur in [s] one after the other, in this
    order and without overlap. *)
Fixpoint in_order (items : list (list N)) (s : list N) : Prop :=
  match items with
  | [] => True
  | item :: items' =>
      ∃ pre post, s = pre ++ item ++ post ∧ in_order items' post
  end.

(** What the item pattern can match: a non-empty run without comma, an
    opening parenthesis, a run without closing parenthesis, a closing
    parenthesis. *)
Definition item_shape (item : list N) : Prop :=
  ∃ a b, item = a ++ LPAREN :: b ++ [RPAREN]
         ∧ a ≠ [] ∧ (COMMA ∉ a) ∧ (RPAREN ∉ b).

(** The value [set_column] assigns to the column of a mapping entry. *)
Definition column_value (product_data : gmap (list N) (list N))
    (nutrient_name quantity : list N) (is_first_row : bool)
    (col : list N * option (list N)) : list N :=
  if decide (col.1 = py "Nutrient") then nutrient_name
  else if decide (col.1 = py "Quantity") then quantity
  else if is_first_row && truthy col.2
       then dict_get product_data (default [] col.2) []
       else [].

(** ** Facts about [strip] *)

Section StripFacts.

Implicit Types s a t : list N.

Lemma lstrip_split s :
  ∃ l, s = l ++ lstrip s ∧ Forall (λ c, is_space c = true) l.
Proof.
  induction s as [|c s IH]; simpl.
  - by exists [].
  - destruct (is_space c) eqn:E.
    + destruct IH as (l & Hl & Hsp). exists (c :: l). split.
      * simpl. by f_equal.
      * by constructor.
    + by exists [].
Qed.

Lemma lstrip_head s c : head (lstrip s) = Some c → is_space c = false.
Proof.
  induction s as [|x s IH]; simpl; [done|].
  destruct (is_space x) eqn:E; [done|].
  simpl. by intros [= <-].
Qed.

Lemma lstrip_app_nonspace a c t :
  is_space c = false → lstrip (a ++ c :: t) = lstrip a ++ c :: t.
Proof.
  intros Hc. induction a as [|x a IH]; simpl.
  - by rewrite Hc.
  - by destruct (is_space x).
Qed.

Lemma rstrip_split s :
  ∃ r, s = rstrip s ++ r ∧ Forall (λ c, is_space c = true) r.
Proof.
  unfold rstrip. destruct (lstrip_split (rev s)) as (l & Hl & Hsp).
  exists (rev l). split.
  - rewrite <- rev_app_distr, <- Hl. by rewrite List.rev_involutive.
  - apply Forall_forall. intros x Hx. rewrite Forall_forall in Hsp.
    apply Hsp. apply list_elem_of_In, List.in_rev.
    by apply list_elem_of_In.
Qed.

Lemma rstrip_snoc_nonspace a c :
  is_space c = false → rstrip (a ++ [c]) = a ++ [c].
Proof.
  intros Hc. unfold rstrip. rewrite rev_app_distr. simpl. rewrite Hc.
  change (c :: rev a) with ([c] ++ rev a).
  by rewrite rev_app_distr, List.rev_involutive.
Qed.

Lemma rstrip_last s c : last (rstrip s) = Some c → is_space c = false.
Proof.
  unfold rstrip. intros H. apply (lstrip_head (rev s)).
  destruct (lstrip (rev s)) as [|x l]; [done|].
  simpl in *. rewrite last_snoc in H. done.
Qed.

(** What [strip] returns is a segment of its argument. *)
Lemma strip_split s :
  ∃ l r, s = l ++ strip s ++ r
         ∧ Forall (λ c, is_space c = true) l
         ∧ Forall (λ c, is_space c = true) r.
Proof.
  unfold strip. destruct (lstrip_split s) as (l & Hl & Hsl).
  destruct (rstrip_split (lstrip s)) as (r & Hr & Hsr).
  exists l, r. split_and!; [|done..]. by rewrite <- Hr.
Qed.

Lemma strip_not_elem s c : c ∉ s → c ∉ strip s.
Proof.
  destruct (strip_split s) as (l & r & Hs & _). intros Hn Hin.
  apply Hn. rewrite Hs. set_solver.
Qed.

Lemma strip_no_outer_space s : no_outer_space (strip s).
Proof.
  split; intros c Hc.
  - unfold strip in Hc.
    destruct (rstrip_split (lstrip s)) as (r & Hr & _).
    apply (lstrip_head s). rewrite Hr.
    destruct (rstrip (lstrip s)); [done|]. done.
  - by apply (rstrip_last (lstrip s)).
Qed.

Lemma no_outer_space_nil : no_outer_space [].
Proof. by split. Qed.

End StripFacts.

(** ** Facts about the matcher *)

Section MatcherFacts.

Implicit Types (s t a : list N) (st : caps * list N).

Lemma elem_of_rep_unfold g cs min s s' :
  s' ∈ rep g cs min s ↔
    (min = O ∧ s' = s)
    ∨ (∃ c t, s = c :: t ∧ cs_match cs c = true
              ∧ s' ∈ rep g cs (pred min) t).
Proof.
  assert (Hstop : s' ∈ match min with O => [s] | S _ => [] end
                  ↔ min = O ∧ s' = s).
  { destruct min; [rewrite list_elem_of_singleton|rewrite elem_of_nil];
      intuition congruence. }
  assert (Hmore :
    s' ∈ match s with
         | c :: t => if cs_match cs c then rep g cs (pred min) t else []
         | [] => []
         end
    ↔ ∃ c t, s = c :: t ∧ cs_match cs c = true
             ∧ s' ∈ rep g cs (pred min) t).
  { destruct s as [|c t].
    - rewrite elem_of_nil. split; [done|]. by intros (? & ? & ? & _).
    - destruct (cs_match cs c) eqn:E.
      + split; [by exists c, t|]. by intros (? & ? & [= <- <-] & _ & ?).
      + rewrite elem_of_nil. split; [done|].
        intros (? & ? & [= <- <-] & ? & _). congruence. }
  rewrite <- Hstop, <- Hmore.
  destruct s, g; simpl; rewrite ?elem_of_app, ?elem_of_nil; tauto.
Qed.

(** A repetition consumes a prefix of admissible code points, at least
    [min] of them ... *)
Lemma rep_sound g cs min s s' :
  s' ∈ rep g cs min s →
  ∃ a, s = a ++ s' ∧ Forall (λ c, cs_match cs c = true) a
       ∧ (min ≤ length a)%nat.
Proof.
  revert min. induction s as [|c t IH]; intros min H;
    apply elem_of_rep_unfold in H as [[-> ->]|(c' & t' & E & Hc & H)];
    try discriminate.
  - exists []. simpl. split_and!; [done|constructor|lia].
  - exists []. simpl. split_and!; [done|constructor|lia].
  - injection E as <- <-. apply IH in H as (a & -> & Ha & Hlen).
    exists (c :: a). simpl. split_and!; [done|by constructor|lia].
Qed.

(** ... and every such prefix is one of the ways. *)
Lemma rep_complete g cs min a s' :
  Forall (λ c, cs_match cs c = true) a → (min ≤ length a)%nat →
  s' ∈ rep g cs min (a ++ s').
Proof.
  revert min. induction a as [|c a IH]; intros min Ha Hlen;
    apply elem_of_rep_unfold.
  - left. simpl in Hlen. split; [lia|done].
  - right. exists c, (a ++ s'). inversion_clear Ha.
    split_and!; [done..|]. apply IH; [done|simpl in Hlen; lia].
Qed.

Lemma cs_match_NoneOf1 x c : cs_match (NoneOf [x]) c = true ↔ c ≠ x.
Proof.
  simpl. destruct (N.eqb_spec c x); simpl; naive_solver.
Qed.

Lemma cs_match_Dot c : cs_match Dot c = true ↔ c ≠ LF.
Proof.
  simpl. destruct (N.eqb_spec c LF); simpl; naive_solver.
Qed.

Lemma Forall_NoneOf1 x a :
  Forall (λ c, cs_match (NoneOf [x]) c = true) a ↔ x ∉ a.
Proof.
  rewrite Forall_forall. setoid_rewrite cs_match_NoneOf1.
  split; [intros H Hin; by apply (H x)|intros H c Hc ->; done].
Qed.

Lemma Forall_Dot a : Forall (λ c, cs_match Dot c = true) a ↔ LF ∉ a.
Proof.
  rewrite Forall_forall. setoid_rewrite cs_match_Dot.
  split; [intros H Hin; by apply (H LF)|intros H c Hc ->; done].
Qed.

Lemma elem_of_run_Lit c st st' :
  st' ∈ run (Lit c) st ↔ st.2 = c :: st'.2 ∧ st'.1 = st.1.
Proof.
  destruct st as [k s], st' as [k' s']. simpl.
  destruct s as [|x t]; [rewrite elem_of_nil; naive_solver|].
  destruct (N.eqb_spec x c) as [->|Hne].
  - rewrite list_elem_of_singleton. naive_solver.
  - rewrite elem_of_nil. naive_solver.
Qed.

Lemma elem_of_run_Rep g min cs st st' :
  st' ∈ run (Rep g min cs) st ↔
    st'.1 = st.1 ∧ st'.2 ∈ rep g cs min st.2.
Proof.
  destruct st as [k s], st' as [k' s']. simpl.
  rewrite list_elem_of_fmap. naive_solver.
Qed.

Lemma elem_of_run_Cat r1 r2 st st' :
  st' ∈ run (Cat r1 r2) st ↔ ∃ m, st' ∈ run r2 m ∧ m ∈ run r1 st.
Proof. simpl. apply list_elem_of_bind. Qed.

Lemma elem_of_run_Grp n r st st' :
  st' ∈ run (Grp n r) st ↔
    ∃ m, m ∈ run r st
         ∧ st' = ((n, take (length st.2 - length m.2) st.2) :: m.1, m.2).
Proof. simpl. rewrite list_elem_of_fmap. naive_solver. Qed.

(** The input left after a match is a suffix of the input. *)
Lemma run_suffix r st st' : st' ∈ run r st → ∃ a, st.2 = a ++ st'.2.
Proof.
  revert st st'. induction r as [c|g min cs|r1 IH1 r2 IH2|n r IH];
    intros st st' H.
  - apply elem_of_run_Lit in H as [H _]. exists [c]. by rewrite H.
  - apply elem_of_run_Rep in H as [_ H].
    apply rep_sound in H as (a & H & _). by exists a.
  - apply elem_of_run_Cat in H as (m & H2 & H1).
    apply IH1 in H1 as (a1 & ->). apply IH2 in H2 as (a2 & ->).
    exists (a1 ++ a2). by rewrite <- app_assoc.
  - apply elem_of_run_Grp in H as (m & H & ->). by apply IH in H.
Qed.

Lemma take_consumed a s' : take (length (a ++ s') - length s') (a ++ s') = a.
Proof.
  rewrite length_app.
  replace (length a + length s' - length s')%nat with (length a) by lia.
  by rewrite take_app_length.
Qed.

End MatcherFacts.

(** ** The item pattern and [findall] *)

Section ItemFacts.

Implicit Types (s t a b item : list N).

Lemma item_run_shape c s c' s' :
  (c', s') ∈ run NUTRIENT_ITEM_REGEX (c, s) →
  ∃ item, item_shape item ∧ s = item ++ s' ∧ c' = (1%nat, item) :: c.
Proof.
  unfold NUTRIENT_ITEM_REGEX. intros H.
  apply elem_of_run_Grp in H as ([k4 s4] & H & E). simpl in E.
  injection E as -> ->.
  apply elem_of_run_Cat in H as ([k1 s1] & H & H1).
  apply elem_of_run_Rep in H1 as [E1 H1]. simpl in E1, H1. subst k1.
  apply rep_sound in H1 as (a & -> & Ha & Hlen).
  apply elem_of_run_Cat in H as ([k2 s2] & H & H2).
  apply elem_of_run_Lit in H2 as [E2 E2']. simpl in E2, E2'. subst s1 k2.
  apply elem_of_run_Cat in H as ([k3 s3] & H & H3).
  apply elem_of_run_Rep in H3 as [E3 H3]. simpl in E3, H3. subst k3.
  apply rep_sound in H3 as (b & -> & Hb & _).
  apply elem_of_run_Lit in H as [E4 E4']. simpl in E4, E4'. subst s3 k4.
  apply Forall_NoneOf1 in Ha, Hb.
  assert (Hs : a ++ LPAREN :: b ++ RPAREN :: s4
               = (a ++ LPAREN :: b ++ [RPAREN]) ++ s4).
  { by rewrite <- !app_assoc; simpl; rewrite <- app_assoc. }
  exists (a ++ LPAREN :: b ++ [RPAREN]). split_and!.
  - exists a, b. split_and!; [done| |done..].
    intros ->. simpl in Hlen. lia.
  - done.
  - rewrite Hs. by rewrite take_consumed.
Qed.

Lemma item_match_shape s c rest :
  re_match NUTRIENT_ITEM_REGEX s = Some (c, rest) →
  ∃ item, item_shape item ∧ s = item ++ rest ∧ c = [(1%nat, item)].
Proof.
  unfold re_match. intros H. apply head_Some_elem_of in H.
  by apply item_run_shape in H.
Qed.

Lemma item_shape_nonempty item : item_shape item → item ≠ [].
Proof. intros (a & b & -> & Ha & _). by destruct a. Qed.

Lemma item_shape_has_paren item : item_shape item → LPAREN ∈ item.
Proof. intros (a & b & -> & _). set_solver. Qed.

(** No opening parenthesis, no match. *)
Lemma item_no_paren_no_match s :
  LPAREN ∉ s → re_match NUTRIENT_ITEM_REGEX s = None.
Proof.
  intros Hn. destruct (re_match _ s) as [[c rest]|] eqn:E; [|done].
  apply item_match_shape in E as (item & Hi & -> & _).
  apply item_shape_has_paren in Hi. set_solver.
Qed.

Lemma findall_from_skip r a rest :
  findall_from r (length a) (a ++ rest) = findall_from r 0 rest.
Proof. induction a as [|x a IH]; simpl; [by destruct rest|done]. Qed.

Lemma findall_from_0 r s :
  findall_from r 0 s
  = match re_match r s with
    | Some (c, rest) =>
        group 1 c ::
          match s with
          | _ :: t => findall_from r (pred (length s - length rest)) t
          | [] => []
          end
    | None => match s with _ :: t => findall_from r 0 t | [] => [] end
    end.
Proof. by destruct s. Qed.

Lemma findall_from_0_cons r x t c rest :
  re_match r (x :: t) = Some (c, rest) →
  findall_from r 0 (x :: t)
  = group 1 c :: findall_from r (pred (length (x :: t) - length rest)) t.
Proof. intros H. by rewrite findall_from_0, H. Qed.

(** The two unfoldings of the scan for the item pattern. *)
Lemma findall_item_match s c rest :
  re_match NUTRIENT_ITEM_REGEX s = Some (c, rest) →
  ∃ item, item_shape item ∧ s = item ++ rest
          ∧ findall NUTRIENT_ITEM_REGEX s
            = item :: findall NUTRIENT_ITEM_REGEX rest.
Proof.
  intros H. destruct (item_match_shape _ _ _ H) as (item & Hi & -> & ->).
  exists item. split_and!; [done..|].
  destruct item as [|x item']; [by apply item_shape_nonempty in Hi|].
  unfold findall. cbn [app].
  rewrite (findall_from_0_cons _ x (item' ++ rest) _ _ H).
  cbn [group Nat.eqb]. f_equal.
  replace (pred (length (x :: item' ++ rest) - length rest))
    with (length item') by (simpl; rewrite length_app; lia).
  apply findall_from_skip.
Qed.

Lemma findall_item_nomatch x t :
  re_match NUTRIENT_ITEM_REGEX (x :: t) = None →
  findall NUTRIENT_ITEM_REGEX (x :: t) = findall NUTRIENT_ITEM_REGEX t.
Proof. intros H. unfold findall. by rewrite findall_from_0, H. Qed.

Lemma findall_item_nil : findall NUTRIENT_ITEM_REGEX [] = [].
Proof. reflexivity. Qed.

Lemma in_order_skip items x s : in_order items s → in_order items (x :: s).
Proof.
  destruct items as [|item items']; [done|].
  intros (pre & post & -> & H). by exists (x :: pre), post.
Qed.

(** The scan, by induction on the text: every item found has the shape
    of the pattern, and the items are successive segments of the text. *)
Lemma findall_item_spec s :
  Forall item_shape (findall NUTRIENT_ITEM_REGEX s)
  ∧ in_order (findall NUTRIENT_ITEM_REGEX s) s.
Proof.
  remember (length s) as n eqn:Hn. revert s Hn.
  induction (lt_wf n) as [n _ IH]. intros s ->.
  destruct (re_match NUTRIENT_ITEM_REGEX s) as [[c rest]|] eqn:E.
  - destruct (findall_item_match _ _ _ E) as (item & Hi & -> & ->).
    destruct (IH (length rest)) with (s := rest) as [IH1 IH2]; [|done|].
    { rewrite length_app.
      pose proof (item_shape_nonempty _ Hi). destruct item; [done|].
      simpl. lia. }
    split; [by constructor|]. by exists [], rest.
  - destruct s as [|x t]; [by rewrite findall_item_nil|].
    rewrite (findall_item_nomatch _ _ E).
    destruct (IH (length t)) with (s := t) as [IH1 IH2];
      [simpl; lia|done|].
    split; [done|]. by apply in_order_skip.
Qed.

Lemma findall_item_no_paren s :
  LPAREN ∉ s → findall NUTRIENT_ITEM_REGEX s = [].
Proof.
  induction s as [|x t IH]; intros Hn; [done|].
  rewrite findall_item_nomatch; [|by apply item_no_paren_no_match].
  apply IH. set_solver.
Qed.

End ItemFacts.

(** ** The name-and-quantity pattern *)

Section NameQtyFacts.

Implicit Types (s t a u v w : list N).

(** The first way a lazy repetition followed by [k] succeeds: it stops
    at the first place where [k] matches. *)
Lemma head_bind_lazy {B} cs s (k : list N → list B) x :
  head (rep Lazy cs 0 s ≫= k) = Some x →
  ∃ a s', s = a ++ s'
          ∧ Forall (λ c, cs_match cs c = true) a
          ∧ head (k s') = Some x
          ∧ ∀ a1 a2, a = a1 ++ a2 → a2 ≠ [] → k (a2 ++ s') = [].
Proof.
  induction s as [|c t IH]; cbn [rep pred]; rewrite bind_app, bind_singleton.
  - rewrite app_nil_r. intros H. exists [], []. split_and!; [done..|].
    intros a1 a2 Ha. by destruct a1, a2.
  - destruct (k (c :: t)) as [|y l] eqn:Ek.
    + cbn [app]. destruct (cs_match cs c) eqn:Ec; [|done].
      intros H. apply IH in H as (a & s' & -> & Ha & Hk & Hmin).
      exists (c :: a), s'. split_and!; [done|by constructor|done|].
      intros [|c' a1] a2 E Hne.
      * simpl in E. by subst a2.
      * injection E as -> ->. by apply (Hmin a1).
    + intros [= <-]. exists [], (c :: t). rewrite Ek.
      split_and!; [done..|]. intros a1 a2 Ha. by destruct a1, a2.
Qed.

Lemma run_Grp_Rep_Cat n g min cs r2 c t :
  run (Cat (Grp n (Rep g min cs)) r2) (c, t)
  = rep g cs min t
      ≫= (λ s', run r2 ((n, take (length t - length s') t) :: c, s')).
Proof. simpl. by rewrite !list_fmap_bind. Qed.

Lemma run_Lit_Cat x r2 c s :
  run (Cat (Lit x) r2) (c, s)
  = match s with
    | y :: s' => if y =? x then run r2 (c, s') else []
    | [] => []
    end.
Proof.
  simpl. destruct s as [|y s']; [done|].
  destruct (y =? x); [|done]. by rewrite bind_singleton.
Qed.

(** After the name: an opening parenthesis, a line without closing
    parenthesis needed, a closing parenthesis. *)
Lemma after_name_complete c v w :
  LF ∉ v →
  run (Cat (Lit LPAREN) (Cat (Grp 2 (Rep Lazy 0 Dot)) (Lit RPAREN)))
    (c, LPAREN :: v ++ RPAREN :: w) ≠ [].
Proof.
  intros Hv. rewrite run_Lit_Cat, N.eqb_refl, run_Grp_Rep_Cat.
  assert (Hin : RPAREN :: w ∈ rep Lazy Dot 0 (v ++ RPAREN :: w)).
  { apply rep_complete; [by apply Forall_Dot|lia]. }
  intros E.
  assert (Hel : ((2%nat, v) :: c, w)
                ∈ rep Lazy Dot 0 (v ++ RPAREN :: w)
                    ≫= (λ s', run (Lit RPAREN)
                          ((2%nat,
                             take (length (v ++ RPAREN :: w) - length s')
                               (v ++ RPAREN :: w)) :: c, s'))).
  { apply list_elem_of_bind. exists (RPAREN :: w). split; [|done].
    rewrite take_consumed. apply elem_of_run_Lit. done. }
  rewrite E in Hel. by apply elem_of_nil in Hel.
Qed.

(** The pattern matches any text that has, on its first line, an
    opening parenthesis and after it, on that line, a closing one. *)
Lemma name_qty_complete u v w :
  LF ∉ u → LF ∉ v →
  is_Some (re_match NUTRIENT_NAME_AND_QTY_REGEX
             (u ++ LPAREN :: v ++ RPAREN :: w)).
Proof.
  intros Hu Hv. unfold re_match, NUTRIENT_NAME_AND_QTY_REGEX.
  apply head_is_Some. rewrite run_Grp_Rep_Cat. intros E.
  pose proof (after_name_complete [(1%nat, u)] v w Hv) as Hne.
  destruct (run (Cat (Lit LPAREN) (Cat (Grp 2 (Rep Lazy 0 Dot)) (Lit RPAREN)))
              ([(1%nat, u)], LPAREN :: v ++ RPAREN :: w))
    as [|y l] eqn:Ey; [done|].
  assert (Hel : y ∈ @nil (caps * list N)); [|by apply elem_of_nil in Hel].
  rewrite <- E. apply list_elem_of_bind.
  exists (LPAREN :: v ++ RPAREN :: w). split.
  - rewrite take_consumed, Ey. by left.
  - apply rep_complete; [by apply Forall_Dot|lia].
Qed.

(** What the match object holds when the pattern matches: group 1 ends
    before the first opening parenthesis, group 2 before the first
    closing parenthesis after it. *)
Lemma name_qty_match t c rest :
  re_match NUTRIENT_NAME_AND_QTY_REGEX t = Some (c, rest) →
  ∃ g1 g2, t = g1 ++ LPAREN :: g2 ++ RPAREN :: rest
           ∧ group 1 c = g1 ∧ group 2 c = g2
           ∧ (LF ∉ g1) ∧ (LF ∉ g2) ∧ (LPAREN ∉ g1) ∧ (RPAREN ∉ g2).
Proof.
  unfold re_match, NUTRIENT_NAME_AND_QTY_REGEX. rewrite run_Grp_Rep_Cat.
  intros H. apply head_bind_lazy in H as (g1 & s1 & -> & Hg1 & H & Hmin1).
  rewrite take_consumed in H. rewrite run_Lit_Cat in H.
  destruct s1 as [|y s2]; [done|].
  destruct (N.eqb_spec y LPAREN) as [->|]; [|done].
  rewrite run_Grp_Rep_Cat in H.
  apply head_bind_lazy in H as (g2 & s3 & -> & Hg2 & H & Hmin2).
  rewrite take_consumed in H. simpl in H.
  destruct s3 as [|z s4]; [done|].
  destruct (N.eqb_spec z RPAREN) as [->|]; [|done].
  injection H as <- <-. apply Forall_Dot in Hg1, Hg2.
  exists g1, g2. split_and!; [done..| |].
  - intros Hin. apply list_elem_of_split in Hin as (l1 & l2 & ->).
    specialize (Hmin1 l1 (LPAREN :: l2) eq_refl ltac:(done)).
    cbv beta in Hmin1. revert Hmin1.
    replace ((LPAREN :: l2) ++ LPAREN :: g2 ++ RPAREN :: s4)
      with (LPAREN :: (l2 ++ LPAREN :: g2) ++ RPAREN :: s4)
      by (by simpl; rewrite <- app_assoc).
    apply after_name_complete.
    apply not_elem_of_app in Hg1 as [_ Hg1].
    apply not_elem_of_cons in Hg1 as [_ Hg1].
    apply not_elem_of_app. split; [done|].
    apply not_elem_of_cons. by split.
  - intros Hin. apply list_elem_of_split in Hin as (l1 & l2 & ->).
    specialize (Hmin2 l1 (RPAREN :: l2) eq_refl ltac:(done)).
    simpl in Hmin2. done.
Qed.

End NameQtyFacts.

(** ** [parse_nutrients] *)

Section ParseFacts.

Implicit Types (s t a b item : list N) (x : option (list N)).

(** The loop appends one entry per item, in the order of the items. *)
Lemma parse_loop (results : list (list N * list N)) (items : list (list N)) :
  foldl (λ results item,
           let item := strip item in
           match re_match NUTRIENT_NAME_AND_QTY_REGEX item with
           | Some (c, _) =>
               let nutrient_name := strip (group 1 c) in
               let quantity := strip (group 2 c) in
               results ++ [(nutrient_name, quantity)]
           | None => results ++ [(item, [])]
           end)
    results items
  = results ++ (entry_of_item <$> items).
Proof.
  revert results. induction items as [|item items IH]; intros results.
  - by rewrite app_nil_r.
  - cbn [foldl]. rewrite IH. rewrite fmap_cons. unfold entry_of_item at 2.
    cbv zeta.
    destruct (re_match _ (strip item)) as [[c rest]|];
      by rewrite <- app_assoc.
Qed.

Lemma parse_nutrients_fmap x :
  parse_nutrients x
  = entry_of_item <$> findall NUTRIENT_ITEM_REGEX (py_or x []).
Proof. unfold parse_nutrients. cbv zeta. by rewrite parse_loop. Qed.

Lemma parse_nutrients_no_paren x :
  LPAREN ∉ py_or x [] → parse_nutrients x = [].
Proof.
  intros H. by rewrite parse_nutrients_fmap, findall_item_no_paren.
Qed.

Lemma in_order_elem items s item :
  in_order items s → item ∈ items → ∃ pre post, s = pre ++ item ++ post.
Proof.
  revert s. induction items as [|i items IH]; intros s H Hin.
  - by apply elem_of_nil in Hin.
  - destruct H as (pre & post & -> & H).
    apply elem_of_cons in Hin as [->|Hin]; [by exists pre, post|].
    destruct (IH _ H Hin) as (pre' & post' & ->).
    exists (pre ++ i ++ pre'), post'. by rewrite <- !app_assoc.
Qed.

(** An item that was found is a segment of the text with the shape of
    the item pattern. *)
Lemma findall_item_elem s item :
  item ∈ findall NUTRIENT_ITEM_REGEX s →
  item_shape item ∧ ∃ pre post, s = pre ++ item ++ post.
Proof.
  intros Hin. destruct (findall_item_spec s) as [Hsh Hord]. split.
  - rewrite Forall_forall in Hsh. by apply Hsh.
  - by apply (in_order_elem _ _ _ Hord).
Qed.

Lemma strip_item a b :
  strip (a ++ LPAREN :: b ++ [RPAREN]) = lstrip a ++ LPAREN :: b ++ [RPAREN].
Proof.
  unfold strip. rewrite lstrip_app_nonspace by done.
  change (lstrip a ++ LPAREN :: b ++ [RPAREN])
    with (lstrip a ++ (LPAREN :: b) ++ [RPAREN]).
  rewrite app_assoc. by apply rstrip_snoc_nonspace.
Qed.

Lemma lstrip_not_elem a c : c ∉ a → c ∉ lstrip a.
Proof.
  destruct (lstrip_split a) as (l & Hl & _). intros Hn Hin.
  apply Hn. rewrite Hl. set_solver.
Qed.

(** A prefix that stops before the first [c] of a text is a prefix of any
    other prefix that is followed by [c]. *)
Lemma prefix_before_first (c : N) g a k1 k2 :
  c ∉ g → g ++ c :: k1 = a ++ c :: k2 → ∃ z, a = g ++ z.
Proof.
  revert a. induction g as [|y g IH]; intros a Hn E.
  - by exists a.
  - apply not_elem_of_cons in Hn as [Hy Hn].
    destruct a as [|y' a]; simpl in E.
    + injection E as E _. congruence.
    + injection E as <- E. destruct (IH _ Hn E) as (z & ->). by exists z.
Qed.

(** The entry of an item that the second pattern matches. *)
Lemma entry_of_item_matched item c rest :
  item_shape item →
  re_match NUTRIENT_NAME_AND_QTY_REGEX (strip item) = Some (c, rest) →
  entry_of_item item = (strip (group 1 c), strip (group 2 c))
  ∧ (COMMA ∉ group 1 c) ∧ (LPAREN ∉ group 1 c) ∧ (RPAREN ∉ group 2 c).
Proof.
  intros (a & b & -> & _ & Ha & _) E. unfold entry_of_item. rewrite E.
  split; [done|].
  apply name_qty_match in E as (g1 & g2 & E & -> & -> & _ & _ & H1 & H2).
  split_and!; [|done..].
  rewrite strip_item in E. symmetry in E.
  apply prefix_before_first in E as (z & E); [|done].
  apply (lstrip_not_elem _ COMMA) in Ha. rewrite E in Ha.
  by apply not_elem_of_app in Ha as [? _].
Qed.

(** The second pattern matches every item that, stripped, has no line
    feed ... *)
Lemma item_matches_without_LF item :
  item_shape item → LF ∉ strip item →
  is_Some (re_match NUTRIENT_NAME_AND_QTY_REGEX (strip item)).
Proof.
  intros (a & b & -> & _). rewrite strip_item. intros Hs.
  rewrite !not_elem_of_app, not_elem_of_cons, not_elem_of_app in Hs.
  destruct Hs as (Ha & _ & Hb & _).
  by apply (name_qty_complete (lstrip a) b []).
Qed.

(** ... which the items of a text without line feed are. *)
Lemma item_of_text_without_LF s item :
  LF ∉ s → item ∈ findall NUTRIENT_ITEM_REGEX s → LF ∉ strip item.
Proof.
  intros Hs Hin. apply strip_not_elem.
  apply findall_item_elem in Hin as [_ (pre & post & ->)].
  rewrite !not_elem_of_app in Hs. by destruct Hs as (_ & ? & _).
Qed.

End ParseFacts.

(** *** Claims about the sub-parser *)

(** C1, as the specification has it, fails: ["JustAName"] does not parse
    to the one entry with that name and an empty quantity. *)
Lemma C1_JustAName_is_not_an_entry :
  parse_nutrients (Some (py "JustAName")) ≠ [(py "JustAName", [])].
Proof. vm_compute. discriminate. Qed.

(** C1, amended: a text without an opening parenthesis holds no candidate
    item and parses to the empty sequence; a candidate item that the
    name-and-quantity pattern does not match is emitted as the entry
    (trimmed item text, empty quantity). *)
Theorem C1_no_parenthesis_no_entry (x : option (list N)) :
  (LPAREN ∉ py_or x [] → parse_nutrients x = [])
  ∧ (∀ item,
       item ∈ findall NUTRIENT_ITEM_REGEX (py_or x []) →
       re_match NUTRIENT_NAME_AND_QTY_REGEX (strip item) = None →
       (strip item, []) ∈ parse_nutrients x).
Proof.
  split; [apply parse_nutrients_no_paren|].
  intros item Hin Hnone. rewrite parse_nutrients_fmap.
  apply list_elem_of_fmap. exists item. split; [|done].
  unfold entry_of_item. by rewrite Hnone.
Qed.

Lemma C1_no_parenthesis_no_entry_witness :
  parse_nutrients (Some (py "JustAName")) = []
  ∧ (py "a" ++ LF :: py "b(c)", [])
      ∈ parse_nutrients (Some (py "a" ++ LF :: py "b(c)")).
Proof.
  split.
  - apply (C1_no_parenthesis_no_entry (Some (py "JustAName"))).
    vm_compute. intros H. repeat (apply elem_of_cons in H as [H|H];
      [discriminate|]). by apply elem_of_nil in H.
  - apply (proj2 (C1_no_parenthesis_no_entry
                    (Some (py "a" ++ LF :: py "b(c)")))
             (py "a" ++ LF :: py "b(c)")).
    + vm_compute. by left.
    + reflexivity.
Defined.

(** C2: the decimal comma of ["Tuky(0,5 g), Bílkoviny(1 g)"] stays inside
    the first quantity; the text parses to exactly two entries. *)
Theorem C2_decimal_comma :
  parse_nutrients
    (Some (py "Tuky(0,5 g), B" ++ [237] ++ py "lkoviny(1 g)"))
  = [ (py "Tuky", py "0,5 g");
      (py "B" ++ [237] ++ py "lkoviny", py "1 g") ].
Proof. reflexivity. Qed.

(** The example of the docstring of [parse_nutrients]. *)
Example parse_nutrients_docstring :
  parse_nutrients
    (Some (py "B" ++ [237] ++ py "lkoviny(1 g), Tuky(0,5 g), Nasycen"
           ++ [233] ++ py " mastn" ++ [233] ++ py " kyseliny(0,1 g)"))
  = [ (py "B" ++ [237] ++ py "lkoviny", py "1 g");
      (py "Tuky", py "0,5 g");
      (py "Nasycen" ++ [233] ++ py " mastn" ++ [233] ++ py " kyseliny",
       py "0,1 g") ].
Proof. reflexivity. Qed.

(** The greedy first run backs up to the last opening parenthesis before
    the next comma, the lazy name stops at the first one. *)
Example parse_nutrients_nested :
  parse_nutrients (Some (py " x)y(z(w) , (q), ,(r) Name()"))
  = [ (py "x)y", py "z(w"); ([], py "q"); ([], py "r") ].
Proof. reflexivity. Qed.

(** C9, as stated, fails: in ["a\nb(c)"] the line feed comes before the
    opening parenthesis, the item found is the whole text, the second
    pattern does not match it and the fallback branch produces the entry. *)
Lemma C9_fallback_reached :
  let s := py "a" ++ LF :: py "b(c)" in
  findall NUTRIENT_ITEM_REGEX s = [s]
  ∧ re_match NUTRIENT_NAME_AND_QTY_REGEX (strip s) = None
  ∧ parse_nutrients (Some s) = [(s, [])].
Proof. by vm_compute. Qed.

(** C9, amended: every item returned by [NUTRIENT_ITEM_REGEX.findall]
    that, after stripping, contains no line feed, and so every item of an
    input string without line feed, matches
    [NUTRIENT_NAME_AND_QTY_REGEX]; its entry is the trimmed groups 1 and
    2 of that match: the fallback branch is not taken for it. *)
Theorem C9_fallback_unreachable_without_LF (s item : list N) :
  item ∈ findall NUTRIENT_ITEM_REGEX s →
  (LF ∉ s) ∨ (LF ∉ strip item) →
  ∃ c rest,
    re_match NUTRIENT_NAME_AND_QTY_REGEX (strip item) = Some (c, rest)
    ∧ entry_of_item item = (strip (group 1 c), strip (group 2 c)).
Proof.
  intros Hin Hlf.
  assert (Hi : LF ∉ strip item).
  { destruct Hlf; [by apply (item_of_text_without_LF s)|done]. }
  apply findall_item_elem in Hin as [Hshape _].
  destruct (item_matches_without_LF item Hshape Hi) as [[c rest] E].
  exists c, rest. split; [done|]. unfold entry_of_item. by rewrite E.
Qed.

Lemma C9_fallback_unreachable_without_LF_witness :
  ∃ c rest,
    re_match NUTRIENT_NAME_AND_QTY_REGEX (strip (py " Tuky(0,5 g)"))
    = Some (c, rest)
    ∧ entry_of_item (py " Tuky(0,5 g)")
      = (strip (group 1 c), strip (group 2 c)).
Proof.
  apply (C9_fallback_unreachable_without_LF
           (py "Sul(1 g), Tuky(0,5 g)") (py " Tuky(0,5 g)")).
  - vm_compute. right. by left.
  - left. vm_compute. intros H.
    repeat (apply elem_of_cons in H as [H|H]; [discriminate|]).
    by apply elem_of_nil in H.
Defined.

(** C10, as stated, fails: the entry of ["a\nb(c)"] has a name with an
    opening parenthesis in it. *)
Lemma C10_name_with_parenthesis :
  let s := py "a" ++ LF :: py "b(c)" in
  (s, []) ∈ parse_nutrients (Some s) ∧ LPAREN ∈ s.
Proof.
  split.
  - vm_compute. by left.
  - vm_compute. do 3 right. by left.
Qed.

(** C10, amended: for every input and every entry (name, quantity)
    returned by [parse_nutrients], the quantity contains no closing
    parenthesis and neither string has leading or trailing whitespace;
    the name contains no comma and no opening parenthesis when it
    contains no line feed, in particular when the input contains none. *)
Theorem C10_entry_invariants (x : option (list N)) (name quantity : list N) :
  (name, quantity) ∈ parse_nutrients x →
  (RPAREN ∉ quantity) ∧ no_outer_space name ∧ no_outer_space quantity
  ∧ ((LF ∉ py_or x []) ∨ (LF ∉ name) → (COMMA ∉ name) ∧ (LPAREN ∉ name)).
Proof.
  rewrite parse_nutrients_fmap. intros Hin.
  apply list_elem_of_fmap in Hin as (item & E & Hin).
  pose proof (findall_item_elem _ _ Hin) as [Hshape _].
  destruct (re_match NUTRIENT_NAME_AND_QTY_REGEX (strip item))
    as [[c rest]|] eqn:Em.
  - destruct (entry_of_item_matched _ _ _ Hshape Em) as (Ee & H1 & H2 & H3).
    rewrite Ee in E. injection E as -> ->.
    split_and!; auto using strip_not_elem, strip_no_outer_space.
  - assert (Ee : entry_of_item item = (strip item, [])).
    { unfold entry_of_item. by rewrite Em. }
    rewrite Ee in E. injection E as -> ->.
    split_and!; [apply not_elem_of_nil|apply strip_no_outer_space
                |apply no_outer_space_nil|].
    intros Hlf.
    assert (Hi : LF ∉ strip item).
    { destruct Hlf; [by apply (item_of_text_without_LF (py_or x []))|done]. }
    destruct (item_matches_without_LF _ Hshape Hi) as [? Hs]. congruence.
Qed.

Lemma C10_entry_invariants_witness :
  (RPAREN ∉ py "0,5 g") ∧ no_outer_space (py "Tuky")
  ∧ no_outer_space (py "0,5 g")
  ∧ (COMMA ∉ py "Tuky") ∧ (LPAREN ∉ py "Tuky").
Proof.
  destruct (C10_entry_invariants (Some (py "Sul(1 g), Tuky(0,5 g)"))
              (py "Tuky") (py "0,5 g")) as (H1 & H2 & H3 & H4).
  - vm_compute. right. by left.
  - split_and!; [done..|apply H4|apply H4];
      right; vm_compute; intros H;
      repeat (apply elem_of_cons in H as [H|H]; [discriminate|]);
      by apply elem_of_nil in H.
Defined.

(** ** [build_row] and [build_rows_for_product] *)

Section RowFacts.

Context (product : gmap (list N) (list N)).
Context (nutrient_name quantity : list N) (is_first_row : bool).

Lemma set_column_insert row col :
  set_column product nutrient_name quantity is_first_row row col
  = <[col.1 := column_value product nutrient_name quantity is_first_row col]>
      row.
Proof.
  destruct col as [csv_col json_key].
  unfold set_column, column_value. simpl.
  repeat case_decide; try done. by destruct (is_first_row && _).
Qed.

Lemma foldl_set_column_other l row k :
  k ∉ l.*1 →
  foldl (set_column product nutrient_name quantity is_first_row) row l !! k
  = row !! k.
Proof.
  revert row. induction l as [|col l IH]; intros row Hk; [done|].
  rewrite fmap_cons in Hk. apply not_elem_of_cons in Hk as [Hne Hk].
  simpl. rewrite IH by done. rewrite set_column_insert.
  by rewrite lookup_insert_ne.
Qed.

Lemma foldl_set_column_lookup l row col :
  NoDup l.*1 → col ∈ l →
  foldl (set_column product nutrient_name quantity is_first_row) row l
    !! col.1
  = Some (column_value product nutrient_name quantity is_first_row col).
Proof.
  revert row. induction l as [|c l IH]; intros row Hnd Hin.
  - by apply elem_of_nil in Hin.
  - rewrite fmap_cons in Hnd. apply NoDup_cons in Hnd as [Hc Hnd].
    simpl. apply elem_of_cons in Hin as [->|Hin].
    + rewrite foldl_set_column_other by done. rewrite set_column_insert.
      by rewrite lookup_insert_eq.
    + by apply IH.
Qed.

Lemma foldl_set_column_dom l row :
  dom (foldl (set_column product nutrient_name quantity is_first_row) row l)
  = dom row ∪ list_to_set l.*1.
Proof.
  revert row. induction l as [|c l IH]; intros row; simpl.
  - set_solver.
  - rewrite IH, set_column_insert, dom_insert_L. set_solver.
Qed.

End RowFacts.

Lemma COLUMN_MAPPING_NoDup : NoDup COLUMN_MAPPING.*1.
Proof. apply (bool_decide_unpack _). by vm_compute. Qed.

(** Every mapped column is other than the two nutrient columns and has a
    non-empty source key. *)
Lemma COLUMN_MAPPING_mapped col key :
  (col, Some key) ∈ COLUMN_MAPPING →
  col ≠ py "Nutrient" ∧ col ≠ py "Quantity" ∧ key ≠ [].
Proof.
  intros H. apply list_elem_of_In in H. unfold COLUMN_MAPPING in H.
  cbn [In] in H.
  repeat (destruct H as [H|H];
          [first [discriminate H
                 |injection H as <- <-; vm_compute; split_and!; discriminate]
          |]).
  done.
Qed.

Section BuildRow.

Context (product : gmap (list N) (list N)).
Implicit Types (nutrient_name quantity : list N) (is_first_row : bool).

Lemma build_row_lookup nutrient_name quantity is_first_row col :
  col ∈ COLUMN_MAPPING →
  build_row product nutrient_name quantity is_first_row !! col.1
  = Some (column_value product nutrient_name quantity is_first_row col).
Proof.
  intros Hin. unfold build_row.
  by apply foldl_set_column_lookup; [apply COLUMN_MAPPING_NoDup|].
Qed.

Lemma build_row_dom nutrient_name quantity is_first_row :
  dom (build_row product nutrient_name quantity is_first_row)
  = list_to_set COLUMN_MAPPING.*1.
Proof. unfold build_row. rewrite foldl_set_column_dom. set_solver. Qed.

Lemma build_row_Nutrient nutrient_name quantity is_first_row :
  build_row product nutrient_name quantity is_first_row !! py "Nutrient"
  = Some nutrient_name.
Proof.
  apply (build_row_lookup _ _ _ (py "Nutrient", None)).
  unfold COLUMN_MAPPING. do 9 right. by left.
Qed.

Lemma build_row_Quantity nutrient_name quantity is_first_row :
  build_row product nutrient_name quantity is_first_row !! py "Quantity"
  = Some quantity.
Proof.
  apply (build_row_lookup _ _ _ (py "Quantity", None)).
  unfold COLUMN_MAPPING. do 10 right. by left.
Qed.

(** A mapped column holds the product's value, or the empty string when
    the product lacks the key, on a first row ... *)
Lemma build_row_first nutrient_name quantity col key :
  (col, Some key) ∈ COLUMN_MAPPING →
  build_row product nutrient_name quantity true !! col
  = Some (dict_get product key []).
Proof.
  intros Hin. rewrite (build_row_lookup _ _ _ _ Hin).
  apply COLUMN_MAPPING_mapped in Hin as (H1 & H2 & H3).
  unfold column_value. simpl. rewrite !decide_False by done.
  by destruct key.
Qed.

(** ... and the empty string on any other row. *)
Lemma build_row_continuation nutrient_name quantity col key :
  (col, Some key) ∈ COLUMN_MAPPING →
  build_row product nutrient_name quantity false !! col = Some [].
Proof.
  intros Hin. rewrite (build_row_lookup _ _ _ _ Hin).
  apply COLUMN_MAPPING_mapped in Hin as (H1 & H2 & H3).
  unfold column_value. simpl. by rewrite !decide_False by done.
Qed.

Lemma enumerate_cons {A} (y : A) (l : list A) :
  enumerate (y :: l) = (O, y) :: (prod_map S id <$> enumerate l).
Proof.
  unfold enumerate. simpl. f_equal.
  rewrite <- fmap_S_seq. generalize (seq 0 (length l)). intros ns.
  revert l. induction ns as [|n ns IH]; intros [|z l]; simpl; f_equal; auto.
Qed.

(** The loop over [enumerate(nutrient_pairs)]: the entry at position 0
    makes a first row, every later entry a continuation row. *)
Lemma rows_loop_from rows (l : list (nat * (list N * list N))) :
  foldl (λ rows '(i, (nut_name, nut_qty)),
           let is_first := Nat.eqb i 0 in
           rows ++ [build_row product nut_name nut_qty is_first])
    rows l
  = rows ++ ((λ ie, build_row product ie.2.1 ie.2.2 (Nat.eqb ie.1 0))
               <$> l).
Proof.
  revert rows. induction l as [|[i [n q]] l IH]; intros rows; simpl.
  - by rewrite app_nil_r.
  - rewrite IH. by rewrite <- app_assoc.
Qed.

Lemma rows_loop (e : list N * list N) (es : list (list N * list N)) :
  foldl (λ rows '(i, (nut_name, nut_qty)),
           let is_first := Nat.eqb i 0 in
           rows ++ [build_row product nut_name nut_qty is_first])
    [] (enumerate (e :: es))
  = build_row product e.1 e.2 true
      :: ((λ e', build_row product e'.1 e'.2 false) <$> es).
Proof.
  rewrite rows_loop_from, enumerate_cons. simpl. f_equal.
  rewrite <- list_fmap_compose.
  transitivity ((λ e', build_row product e'.1 e'.2 false)
                  <$> (enumerate es).*2).
  - rewrite <- list_fmap_compose. by apply list_fmap_ext.
  - unfold enumerate. rewrite snd_zip; [done|]. by rewrite length_seq.
Qed.

(** The rows of a product: one first row, then the continuation rows of
    the entries after the first. *)
Lemma build_rows_for_product_unfold :
  build_rows_for_product product
  = match parse_nutrients (Some (dict_get product (py "Nutrient") [])) with
    | [] => [build_row product [] [] true]
    | e :: es =>
        build_row product e.1 e.2 true
          :: ((λ e', build_row product e'.1 e'.2 false) <$> es)
    end.
Proof.
  unfold build_rows_for_product.
  destruct (parse_nutrients _) as [|e es]; [done|]. apply rows_loop.
Qed.

End BuildRow.

(** *** Claims about the row expander *)

(** C3: a product yields [max 1 n] rows, [n] being the number of entries
    parsed from its nutrient field; in particular at least one. *)
Theorem C3_row_count (product : gmap (list N) (list N)) :
  length (build_rows_for_product product)
  = Nat.max 1
      (length (parse_nutrients (Some (dict_get product (py "Nutrient") []))))
  ∧ build_rows_for_product product ≠ [].
Proof.
  rewrite build_rows_for_product_unfold.
  destruct (parse_nutrients _) as [|e es]; simpl; [done|].
  by rewrite length_fmap.
Qed.

(** C4: the group of a product is one first row, emitted first, followed
    by one continuation row per later entry; the row at position [i] is
    built as a first row exactly when [i] is 0.  The first row holds the
    product's value (the empty string for an absent key) in every mapped
    column and its entry, or two empty strings, in the columns Nutrient
    and Quantity.  A continuation row holds the empty string in every
    mapped column and its entry in the columns Nutrient and Quantity.  So
    a mapped column whose value in the product is not empty holds that
    value in the row at position 0 and in no other row of the group. *)
Theorem C4_first_row_then_continuations (product : gmap (list N) (list N)) :
  ∃ first rest,
    build_rows_for_product product
    = build_row product first.1 first.2 true
        :: ((λ e, build_row product e.1 e.2 false) <$> rest)
    ∧ (let pairs :=
         parse_nutrients (Some (dict_get product (py "Nutrient") [])) in
       pairs = first :: rest ∨ (pairs = [] ∧ first = ([], []) ∧ rest = []))
    ∧ (∀ i row,
         build_rows_for_product product !! i = Some row →
         ∃ e, e ∈ first :: rest
              ∧ row = build_row product e.1 e.2 (Nat.eqb i 0))
    ∧ (let row := build_row product first.1 first.2 true in
       row !! py "Nutrient" = Some first.1
       ∧ row !! py "Quantity" = Some first.2
       ∧ ∀ col key, (col, Some key) ∈ COLUMN_MAPPING →
                    row !! col = Some (dict_get product key []))
    ∧ (∀ e, e ∈ rest →
        let row := build_row product e.1 e.2 false in
        row !! py "Nutrient" = Some e.1
        ∧ row !! py "Quantity" = Some e.2
        ∧ ∀ col key, (col, Some key) ∈ COLUMN_MAPPING → row !! col = Some [])
    ∧ ∀ col key,
        (col, Some key) ∈ COLUMN_MAPPING →
        dict_get product key [] ≠ [] →
        ∀ i row,
          build_rows_for_product product !! i = Some row →
          (row !! col = Some (dict_get product key []) ↔ i = O).
Proof.
  assert (Hfirst : ∀ e : list N * list N,
            let row := build_row product e.1 e.2 true in
            row !! py "Nutrient" = Some e.1
            ∧ row !! py "Quantity" = Some e.2
            ∧ ∀ col key, (col, Some key) ∈ COLUMN_MAPPING
                         → row !! col = Some (dict_get product key [])).
  { intros e. split_and!.
    - apply build_row_Nutrient.
    - apply build_row_Quantity.
    - intros col key. apply build_row_first. }
  assert (Hcont : ∀ e : list N * list N,
            let row := build_row product e.1 e.2 false in
            row !! py "Nutrient" = Some e.1
            ∧ row !! py "Quantity" = Some e.2
            ∧ ∀ col key, (col, Some key) ∈ COLUMN_MAPPING
                         → row !! col = Some []).
  { intros e. split_and!.
    - apply build_row_Nutrient.
    - apply build_row_Quantity.
    - intros col key. apply build_row_continuation. }
  assert (Hidx : ∀ (first : list N * list N) rest i row,
            (build_row product first.1 first.2 true
               :: ((λ e, build_row product e.1 e.2 false) <$> rest)) !! i
            = Some row →
            ∃ e, e ∈ first :: rest
                 ∧ row = build_row product e.1 e.2 (Nat.eqb i 0)).
  { intros first rest [|i] row Hrow; rewrite lookup_cons in Hrow.
    - injection Hrow as <-. exists first. split; [by left|reflexivity].
    - rewrite list_lookup_fmap in Hrow.
      destruct (rest !! i) as [e|] eqn:Ee; [|discriminate Hrow].
      injection Hrow as <-. exists e. split; [|reflexivity].
      right. by apply list_elem_of_lookup_2 in Ee. }
  assert (Honly : ∀ (first : list N * list N) rest col key,
            (col, Some key) ∈ COLUMN_MAPPING →
            dict_get product key [] ≠ [] →
            ∀ i row,
              (build_row product first.1 first.2 true
                 :: ((λ e, build_row product e.1 e.2 false) <$> rest)) !! i
              = Some row →
              (row !! col = Some (dict_get product key []) ↔ i = O)).
  { intros first rest col key Hin Hne i row Hrow.
    destruct (Hidx first rest i row Hrow) as (e & _ & ->).
    destruct i as [|i]; cbn [Nat.eqb].
    - split; [done|]. intros _. by apply build_row_first.
    - rewrite (build_row_continuation product e.1 e.2 col key Hin).
      split; [|done]. intros [= E]. by destruct Hne. }
  rewrite build_rows_for_product_unfold.
  destruct (parse_nutrients _) as [|e es].
  - exists ([], []), [].
    split_and!; [reflexivity|by right|apply (Hidx ([], []) [])
                |apply (Hfirst ([], []))| |apply (Honly ([], []) [])].
    intros e _. apply Hcont.
  - exists e, es.
    split_and!; [reflexivity|by left|apply (Hidx e es)
                |apply (Hfirst e)| |apply (Honly e es)].
    intros e' _. apply Hcont.
Qed.

Lemma C4_first_row_then_continuations_witness :
  let product : gmap (list N) (list N) :=
    <[py "SKU" := py "123"]>
      (<[py "Nutrient" := py "Tuky(0,5 g), Sul(1 g)"]> ∅) in
  (build_row product (py "Tuky") (py "0,5 g") true !! py "SKU"
   = Some (py "123") ↔ 0%nat = O)
  ∧ (build_row product (py "Sul") (py "1 g") false !! py "SKU"
     = Some (py "123") ↔ 1%nat = O).
Proof.
  intros product.
  destruct (C4_first_row_then_continuations product)
    as (first & rest & _ & _ & _ & _ & _ & Honly).
  assert (Hcol : (py "SKU", Some (py "SKU")) ∈ COLUMN_MAPPING).
  { unfold COLUMN_MAPPING. do 2 right. by left. }
  assert (Hne : dict_get product (py "SKU") [] ≠ []).
  { vm_compute. discriminate. }
  split.
  - apply (Honly _ _ Hcol Hne). reflexivity.
  - apply (Honly _ _ Hcol Hne). reflexivity.
Defined.

(** C5: when the nutrient field is missing, empty or holds whitespace
    only, the sub-parser returns no entry and the product yields one row,
    a first row: Nutrient and Quantity are empty, every mapped column
    holds the product's value for its key (the empty string when the
    product has none). *)
Theorem C5_blank_nutrient_field (product : gmap (list N) (list N)) :
  (∀ s, product !! py "Nutrient" = Some s
        → Forall (λ c, is_space c = true) s) →
  parse_nutrients None = []
  ∧ parse_nutrients (Some (dict_get product (py "Nutrient") [])) = []
  ∧ build_rows_for_product product = [build_row product [] [] true]
  ∧ build_row product [] [] true !! py "Nutrient" = Some []
  ∧ build_row product [] [] true !! py "Quantity" = Some []
  ∧ ∀ col key,
      (col, Some key) ∈ COLUMN_MAPPING →
      build_row product [] [] true !! col = Some (dict_get product key []).
Proof.
  intros Hblank.
  assert (Hp : parse_nutrients
                 (Some (dict_get product (py "Nutrient") [])) = []).
  { apply parse_nutrients_no_paren. unfold dict_get.
    destruct (product !! py "Nutrient") as [s|] eqn:E; simpl.
    - specialize (Hblank s eq_refl). rewrite Forall_forall in Hblank.
      assert (Hs : LPAREN ∉ s) by (intros Hin; by apply Hblank in Hin).
      by destruct s.
    - apply not_elem_of_nil. }
  split_and!.
  - reflexivity.
  - done.
  - by rewrite build_rows_for_product_unfold, Hp.
  - apply build_row_Nutrient.
  - apply build_row_Quantity.
  - intros col key. apply build_row_first.
Qed.

Lemma C5_blank_nutrient_field_witness :
  let product : gmap (list N) (list N) :=
    <[py "SKU" := py "123"]> (<[py "Nutrient" := [32; 9; 160]]> ∅) in
  build_rows_for_product product = [build_row product [] [] true]
  ∧ build_row product [] [] true !! py "SKU" = Some (py "123")
  ∧ build_row product [] [] true !! py "Weight" = Some [].
Proof.
  intros product.
  destruct (C5_blank_nutrient_field product) as (_ & _ & H & _ & _ & Hcol).
  - intros s. vm_compute. intros [= <-]. by repeat constructor.
  - split_and!; [exact H|..].
    + rewrite (Hcol (py "SKU") (py "SKU")); [reflexivity|].
      unfold COLUMN_MAPPING. do 2 right. by left.
    + rewrite (Hcol (py "Weight") (py "Weight")); [reflexivity|].
      unfold COLUMN_MAPPING. do 19 right. by left.
Defined.

(** C6: on a first row, a mapped column whose source field the product
    lacks holds the empty string; and every row of a product maps exactly
    the column names of [COLUMN_MAPPING]. *)
Theorem C6_missing_field_is_empty (product : gmap (list N) (list N)) :
  (∀ nutrient_name quantity col key,
     (col, Some key) ∈ COLUMN_MAPPING →
     product !! key = None →
     build_row product nutrient_name quantity true !! col = Some [])
  ∧ (∀ row,
       row ∈ build_rows_for_product product →
       dom row = list_to_set COLUMN_MAPPING.*1).
Proof.
  split.
  - intros n q col key Hin Hnone. rewrite (build_row_first _ _ _ _ key Hin).
    unfold dict_get. by rewrite Hnone.
  - intros row. rewrite build_rows_for_product_unfold.
    destruct (parse_nutrients _) as [|e es].
    + intros ->%list_elem_of_singleton. apply build_row_dom.
    + intros [->|Hin]%elem_of_cons; [apply build_row_dom|].
      apply list_elem_of_fmap in Hin as (e' & -> & _). apply build_row_dom.
Qed.

Lemma C6_missing_field_is_empty_witness :
  let product : gmap (list N) (list N) :=
    <[py "SKU" := py "123"]> (<[py "Nutrient" := py "Tuky(0,5 g)"]> ∅) in
  build_row product (py "Tuky") (py "0,5 g") true !! py "Kcal" = Some []
  ∧ ∀ row, row ∈ build_rows_for_product product →
           dom row = list_to_set COLUMN_MAPPING.*1.
Proof.
  intros product. split.
  - apply (proj1 (C6_missing_field_is_empty product) _ _ _ (py "Calories")).
    + unfold COLUMN_MAPPING. do 7 right. by left.
    + reflexivity.
  - apply (proj2 (C6_missing_field_is_empty product)).
Defined.

(** ** Order and state *)

Section Order.

Lemma writerow_loop (fieldnames : list (list N))
    (csvfile : list (list (list N)))
    (rows : list (gmap (list N) (list N))) :
  foldl (writerow fieldnames) csvfile rows
  = csvfile ++ ((λ row, (λ k, dict_get row k []) <$> fieldnames) <$> rows).
Proof.
  revert csvfile. induction rows as [|row rows IH]; intros csvfile; simpl.
  - by rewrite app_nil_r.
  - rewrite IH. unfold writerow. by rewrite <- app_assoc.
Qed.

Lemma products_loop (fieldnames : list (list N))
    (csvfile : list (list (list N)))
    (data : list (gmap (list N) (list N))) :
  foldl (λ csvfile product,
           let product_rows := build_rows_for_product product in
           foldl (writerow fieldnames) csvfile product_rows)
    csvfile data
  = csvfile
      ++ (data ≫= λ product,
            (λ row, (λ k, dict_get row k []) <$> fieldnames)
              <$> build_rows_for_product product).
Proof.
  revert csvfile. induction data as [|product data IH]; intros csvfile.
  - simpl. by rewrite app_nil_r.
  - cbn [foldl]. rewrite IH, writerow_loop, bind_cons.
    by rewrite <- app_assoc.
Qed.

Lemma nutrient_columns_of_rows (product : gmap (list N) (list N))
    (es : list (list N * list N)) flag :
  (λ row, (dict_get row (py "Nutrient") [], dict_get row (py "Quantity") []))
    <$> ((λ e, build_row product e.1 e.2 flag) <$> es)
  = es.
Proof.
  rewrite <- list_fmap_compose. rewrite <- (list_fmap_id es) at 2.
  apply list_fmap_ext. intros _ [n q] _. simpl. unfold dict_get.
  by rewrite build_row_Nutrient, build_row_Quantity.
Qed.

End Order.

(** C7: the entries are, one for one and in this order, those of all the
    items that [findall] returns, none left out, merged or moved, and
    these items are successive non-overlapping segments of the text; when
    there is an entry, the Nutrient and Quantity columns of a product's
    rows list the entries in the parser's order; and the records written
    are the header followed by the rows of each product, in the order of
    the products. *)
Theorem C7_order_preserved :
  (∀ x,
      parse_nutrients x
      = entry_of_item <$> findall NUTRIENT_ITEM_REGEX (py_or x [])
      ∧ in_order (findall NUTRIENT_ITEM_REGEX (py_or x [])) (py_or x []))
  ∧ (∀ product : gmap (list N) (list N),
       let pairs :=
         parse_nutrients (Some (dict_get product (py "Nutrient") [])) in
       pairs ≠ [] →
       (λ row, (dict_get row (py "Nutrient") [],
                dict_get row (py "Quantity") []))
         <$> build_rows_for_product product
       = pairs)
  ∧ (∀ data,
       convert_json_to_csv data
       = COLUMN_MAPPING.*1
           :: (data ≫= λ product,
                 (λ row, (λ k, dict_get row k []) <$> COLUMN_MAPPING.*1)
                   <$> build_rows_for_product product)).
Proof.
  split_and!.
  - intros x. split.
    + apply parse_nutrients_fmap.
    + apply findall_item_spec.
  - intros product pairs Hne. subst pairs.
    rewrite build_rows_for_product_unfold.
    destruct (parse_nutrients _) as [|[n q] es]; [done|].
    rewrite fmap_cons, nutrient_columns_of_rows. unfold dict_get.
    cbn [fst snd]. rewrite build_row_Nutrient, build_row_Quantity.
    reflexivity.
  - intros data. unfold convert_json_to_csv. rewrite products_loop.
    reflexivity.
Qed.

Lemma C7_order_preserved_witness :
  let product : gmap (list N) (list N) :=
    <[py "Nutrient" := py "Tuky(2 g), Sul(1 g), Tuky(2 g)"]> ∅ in
  (λ row, (dict_get row (py "Nutrient") [], dict_get row (py "Quantity") []))
    <$> build_rows_for_product product
  = [(py "Tuky", py "2 g"); (py "Sul", py "1 g"); (py "Tuky", py "2 g")].
Proof.
  intros product.
  rewrite (proj1 (proj2 C7_order_preserved) product); [reflexivity|].
  vm_compute. discriminate.
Defined.

Section Calls.

Lemma alter_at_length {A} (f : A → A) (h1 : list A) (x : A) (h2 : list A) :
  alter f (length h1) (h1 ++ x :: h2) = h1 ++ f x :: h2.
Proof. induction h1 as [|y h1 IH]; simpl; [done|]. f_equal. exact IH. Qed.

(** The loop: with the module's bindings in place, it appends the entry of
    every item, in order, to the object [results] and changes nothing
    else. *)
Lemma for_each_item_appends (results : nat) (items : list (list N))
    (g : module_state) (h1 : list (list (list N * list N)))
    (acc : list (list N * list N)) (h2 : list (list (list N * list N))) :
  g_NUTRIENT_NAME_AND_QTY_REGEX g = NUTRIENT_NAME_AND_QTY_REGEX →
  results = length h1 →
  for_each items (λ item,
      let item := strip item in
      name_and_qty_regex <~ read_global g_NUTRIENT_NAME_AND_QTY_REGEX ;;
      match re_match name_and_qty_regex item with
      | Some (c, _) =>
          let nutrient_name := strip (group 1 c) in
          let quantity := strip (group 2 c) in
          list_append results (nutrient_name, quantity)
      | None => list_append results (item, [])
      end)
    {| st_globals := g; st_heap := h1 ++ acc :: h2 |}
  = (tt, {| st_globals := g;
            st_heap := h1 ++ (acc ++ (entry_of_item <$> items)) :: h2 |}).
Proof.
  intros Hg ->. revert acc.
  induction items as [|item items IH]; intros acc.
  - simpl. by rewrite app_nil_r.
  - cbn [for_each]. unfold bind at 1. unfold bind at 1.
    unfold read_global at 1. cbn [st_globals]. rewrite Hg.
    assert (Hstep : ∀ v,
              list_append (length h1) v
                {| st_globals := g; st_heap := h1 ++ acc :: h2 |}
              = (tt, {| st_globals := g;
                        st_heap := h1 ++ (acc ++ [v]) :: h2 |})).
    { intros v. unfold list_append. cbn [st_globals st_heap].
      by rewrite alter_at_length. }
    rewrite fmap_cons. cbv zeta.
    assert (He : entry_of_item item
                 = match re_match NUTRIENT_NAME_AND_QTY_REGEX (strip item) with
                   | Some (c, _) => (strip (group 1 c), strip (group 2 c))
                   | None => (strip item, [])
                   end) by reflexivity.
    rewrite He.
    destruct (re_match NUTRIENT_NAME_AND_QTY_REGEX (strip item))
      as [[c rest]|]; rewrite Hstep, IH; by rewrite <- app_assoc.
Qed.

(** A call, with the module's bindings in place: the value is the address
    of a new object, which holds [parse_nutrients] of the argument; the
    objects that existed and the bindings are as before. *)
Lemma call_parse_nutrients_run (x : option (list N)) (σ : py_state) :
  st_globals σ = module_init →
  call_parse_nutrients x σ
  = (length (st_heap σ),
     {| st_globals := st_globals σ;
        st_heap := st_heap σ ++ [parse_nutrients x] |}).
Proof.
  destruct σ as [g h]. cbn [st_globals st_heap]. intros ->.
  unfold call_parse_nutrients. unfold bind at 1. unfold read_global at 1.
  cbn [st_globals g_NUTRIENT_ITEM_REGEX module_init]. cbv zeta.
  unfold bind at 1. unfold new_list. cbn [st_globals st_heap].
  unfold bind at 1.
  rewrite (for_each_item_appends (length h) _ module_init h [] []);
    [|done..].
  unfold ret. by rewrite parse_nutrients_fmap.
Qed.

End Calls.

(** C8: with the module's bindings as the module sets them, two calls of
    [parse_nutrients] in a row on the same argument, from any state, each
    return a list object of their own that holds the same sequence, the
    function [parse_nutrients] of the argument alone; the second call
    leaves the result of the first as it was, and neither changes an
    object that existed before or a binding of the module. *)
Theorem C8_parse_deterministic (x : option (list N)) (σ : py_state) :
  st_globals σ = module_init →
  let '(r1, σ1) := call_parse_nutrients x σ in
  let '(r2, σ2) := call_parse_nutrients x σ1 in
  st_heap σ1 !! r1 = Some (parse_nutrients x)
  ∧ st_heap σ2 !! r2 = Some (parse_nutrients x)
  ∧ r1 ≠ r2
  ∧ st_heap σ2 !! r1 = Some (parse_nutrients x)
  ∧ st_globals σ2 = st_globals σ
  ∧ st_heap σ !! r1 = None
  ∧ ∀ l obj, st_heap σ !! l = Some obj → st_heap σ2 !! l = Some obj.
Proof.
  intros Hg. rewrite (call_parse_nutrients_run x σ Hg). cbv beta iota.
  rewrite call_parse_nutrients_run by exact Hg. cbv beta iota.
  cbn [st_globals st_heap]. split_and!.
  - by apply list_lookup_middle.
  - by apply list_lookup_middle.
  - rewrite length_app. cbn [length]. lia.
  - apply lookup_app_l_Some. by apply list_lookup_middle.
  - reflexivity.
  - apply lookup_ge_None. lia.
  - intros l obj Hl. by do 2 apply lookup_app_l_Some.
Qed.

Lemma C8_parse_deterministic_witness :
  let σ := {| st_globals := module_init;
              st_heap := [[(py "Sul", py "1 g")]] |} in
  let x := Some (py "Tuky(0,5 g)") in
  let '(r1, σ1) := call_parse_nutrients x σ in
  let '(r2, σ2) := call_parse_nutrients x σ1 in
  st_heap σ1 !! r1 = Some [(py "Tuky", py "0,5 g")]
  ∧ st_heap σ2 !! r2 = Some [(py "Tuky", py "0,5 g")]
  ∧ r1 ≠ r2
  ∧ st_heap σ2 !! r1 = Some [(py "Tuky", py "0,5 g")]
  ∧ st_globals σ2 = module_init
  ∧ st_heap σ !! r1 = None
  ∧ ∀ l obj, st_heap σ !! l = Some obj → st_heap σ2 !! l = Some obj.
Proof.
  exact (C8_parse_deterministic (Some (py "Tuky(0,5 g)"))
           {| st_globals := module_init;
              st_heap := [[(py "Sul", py "1 g")]] |} eq_refl).
Defined.

(** ** Further properties of the sub-parser *)

Section WellFormedItems.

Implicit Types (s t a b n q junk rest item : list N).

Lemma py_or_Some s : py_or (Some s) [] = s.
Proof. by destruct s. Qed.

Lemma lstrip_idemp s : lstrip (lstrip s) = lstrip s.
Proof.
  induction s as [|c s IH]; [done|]. simpl.
  destruct (is_space c) eqn:E; [done|]. simpl. by rewrite E.
Qed.

Lemma strip_lstrip s : strip (lstrip s) = strip s.
Proof. unfold strip. by rewrite lstrip_idemp. Qed.

(** Where a text splits in two ways, at [y] after [q] and at [x] after
    [z], and [x] occurs neither in [q] nor is [y], the second split point
    lies behind the first. *)
Lemma split_behind (x y : N) q z k1 k2 :
  x ∉ q → x ≠ y → q ++ y :: k1 = z ++ x :: k2 →
  ∃ z', z = q ++ y :: z' ∧ k1 = z' ++ x :: k2.
Proof.
  revert z. induction q as [|c q IH]; intros z Hq Hxy E.
  - destruct z as [|c' z]; simpl in E.
    + injection E as E _. congruence.
    + injection E as <- E. by exists z.
  - apply not_elem_of_cons in Hq as [Hc Hq].
    destruct z as [|c' z]; simpl in E.
    + injection E as E _. congruence.
    + injection E as <- E. destruct (IH _ Hq Hxy E) as (z' & -> & ->).
      by exists z'.
Qed.

(** The item pattern has a match wherever its shape is present. *)
Lemma item_run_complete a b rest :
  a ≠ [] → COMMA ∉ a → RPAREN ∉ b →
  ([(1%nat, a ++ LPAREN :: b ++ [RPAREN])], rest)
    ∈ run NUTRIENT_ITEM_REGEX ([], a ++ LPAREN :: b ++ RPAREN :: rest).
Proof.
  intros Ha Hc Hb. unfold NUTRIENT_ITEM_REGEX.
  apply elem_of_run_Grp. exists ([], rest). split.
  - apply elem_of_run_Cat. exists ([], LPAREN :: b ++ RPAREN :: rest). split.
    + apply elem_of_run_Cat. exists ([], b ++ RPAREN :: rest). split.
      * apply elem_of_run_Cat. exists ([], RPAREN :: rest). split.
        -- by apply elem_of_run_Lit.
        -- apply elem_of_run_Rep. split; [done|]. simpl.
           apply rep_complete; [by apply Forall_NoneOf1|lia].
      * by apply elem_of_run_Lit.
    + apply elem_of_run_Rep. split; [done|]. simpl.
      apply rep_complete; [by apply Forall_NoneOf1|].
      destruct a; [done|]. simpl. lia.
  - simpl. do 2 f_equal.
    replace (a ++ LPAREN :: b ++ RPAREN :: rest)
      with ((a ++ LPAREN :: b ++ [RPAREN]) ++ rest)
      by (by rewrite <- !app_assoc; simpl; rewrite <- app_assoc).
    by rewrite take_consumed.
Qed.

(** A well-formed item at the head of the text, followed by a comma or by
    nothing, is what the item pattern matches there. *)
Lemma item_match_exact n q rest :
  n ≠ [] → COMMA ∉ n → LPAREN ∉ n → LPAREN ∉ q → RPAREN ∉ q →
  rest = [] ∨ (∃ r, rest = COMMA :: r) →
  re_match NUTRIENT_ITEM_REGEX (n ++ LPAREN :: q ++ RPAREN :: rest)
  = Some ([(1%nat, n ++ LPAREN :: q ++ [RPAREN])], rest).
Proof.
  intros Hn Hnc Hnp Hqp Hqr Hrest.
  destruct (re_match NUTRIENT_ITEM_REGEX (n ++ LPAREN :: q ++ RPAREN :: rest))
    as [[c rest']|] eqn:E.
  - destruct (item_match_shape _ _ _ E)
      as (item & (a & b & -> & Ha & Hac & Hb) & Et & ->).
    rewrite <- !app_assoc in Et. simpl in Et. rewrite <- app_assoc in Et.
    simpl in Et.
    destruct (prefix_before_first LPAREN n a _ _ Hnp Et) as (z & ->).
    rewrite <- app_assoc in Et. apply app_inv_head in Et.
    destruct z as [|c0 z]; simpl in Et.
    + injection Et as Et.
      destruct (not_elem_of_app_cons_inv_l RPAREN RPAREN q rest b rest')
        as (-> & _ & ->); [done..|].
      by rewrite app_nil_r.
    + injection Et as <- Et.
      destruct (split_behind LPAREN RPAREN q z rest (b ++ RPAREN :: rest'))
        as (z' & -> & Er); [done..|].
      exfalso. destruct Hrest as [->|[r ->]].
      * by destruct z'.
      * destruct z' as [|c1 z']; simpl in Er; [discriminate|].
        injection Er as <- _. apply Hac. set_solver.
  - exfalso. unfold re_match in E. apply head_None in E.
    pose proof (item_run_complete n q rest Hn Hnc Hqr) as Hin.
    rewrite E in Hin. by apply elem_of_nil in Hin.
Qed.

(** No item starts at a comma. *)
Lemma item_no_match_at_comma r :
  re_match NUTRIENT_ITEM_REGEX (COMMA :: r) = None.
Proof.
  destruct (re_match _ (COMMA :: r)) as [[c rest]|] eqn:E; [|done].
  apply item_match_shape in E as (item & (a & b & -> & Ha & Hac & _) & Et & _).
  destruct a as [|c0 a]; [done|]. simpl in Et. injection Et as <- _.
  exfalso. apply Hac. by left.
Qed.

(** Nor anywhere in a stretch without opening parenthesis that a comma
    ends. *)
Lemma item_no_match_in_junk junk rest :
  LPAREN ∉ junk →
  re_match NUTRIENT_ITEM_REGEX (junk ++ COMMA :: rest) = None.
Proof.
  intros Hj.
  destruct (re_match _ (junk ++ COMMA :: rest)) as [[c rest']|] eqn:E; [|done].
  apply item_match_shape in E as (item & (a & b & -> & Ha & Hac & _) & Et & _).
  rewrite <- !app_assoc in Et. simpl in Et.
  destruct (split_behind LPAREN COMMA junk a _ _ Hj ltac:(done) Et)
    as (z & -> & _).
  exfalso. apply Hac. set_solver.
Qed.

Lemma findall_skip_junk junk rest :
  LPAREN ∉ junk →
  findall NUTRIENT_ITEM_REGEX (junk ++ COMMA :: rest)
  = findall NUTRIENT_ITEM_REGEX rest.
Proof.
  induction junk as [|c junk IH]; intros Hj; simpl.
  - apply findall_item_nomatch, item_no_match_at_comma.
  - apply not_elem_of_cons in Hj as [Hc Hj].
    rewrite findall_item_nomatch; [by apply IH|].
    apply (item_no_match_in_junk (c :: junk)).
    by apply not_elem_of_cons.
Qed.

(** The entry of a well-formed item. *)
Lemma entry_of_well_formed_item n q :
  LPAREN ∉ n → LF ∉ n → RPAREN ∉ q → LF ∉ q →
  entry_of_item (n ++ LPAREN :: q ++ [RPAREN]) = (strip n, strip q).
Proof.
  intros Hnp Hnl Hqr Hql. unfold entry_of_item. rewrite strip_item.
  destruct (name_qty_complete (lstrip n) q [])
    as [[c rest] E]; [by apply lstrip_not_elem|done|].
  rewrite E.
  apply name_qty_match in E as (g1 & g2 & Et & -> & -> & _ & _ & H1 & H2).
  destruct (not_elem_of_app_cons_inv_l LPAREN LPAREN (lstrip n)
              (q ++ [RPAREN]) g1 (g2 ++ RPAREN :: rest))
    as (<- & _ & Eq); [done|by apply lstrip_not_elem|done|].
  destruct (not_elem_of_app_cons_inv_l RPAREN RPAREN q [] g2 rest)
    as (<- & _ & _); [done..|].
  by rewrite strip_lstrip.
Qed.

Lemma item_shape_has_close item : item_shape item → RPAREN ∈ item.
Proof. intros (a & b & -> & _). set_solver. Qed.

Lemma findall_item_no_close s :
  RPAREN ∉ s → findall NUTRIENT_ITEM_REGEX s = [].
Proof.
  induction s as [|x t IH]; intros Hn; [done|].
  rewrite findall_item_nomatch; [apply IH; set_solver|].
  destruct (re_match _ (x :: t)) as [[c rest]|] eqn:E; [|done].
  apply item_match_shape in E as (item & Hi & Et & _).
  apply item_shape_has_close in Hi. exfalso. apply Hn. rewrite Et.
  set_solver.
Qed.

End WellFormedItems.

(** Membership goals over literal texts. *)
Ltac not_in_text :=
  vm_compute; let H := fresh in
  intros H; repeat (apply elem_of_cons in H as [H|H]; [discriminate|]);
  by apply elem_of_nil in H.

(** X1: a text that is one well-formed item [name(quantity)] parses to the
    single entry of the trimmed name and the trimmed quantity.  The name
    is not empty and has no comma, opening parenthesis or line feed; the
    quantity has no parenthesis and no line feed, and may hold commas. *)
Theorem X1_single_item (n q : list N) :
  n ≠ [] → COMMA ∉ n → LPAREN ∉ n → LF ∉ n →
  LPAREN ∉ q → RPAREN ∉ q → LF ∉ q →
  parse_nutrients (Some (n ++ LPAREN :: q ++ [RPAREN]))
  = [(strip n, strip q)].
Proof.
  intros Hn Hnc Hnp Hnl Hqp Hqr Hql.
  rewrite parse_nutrients_fmap, py_or_Some.
  destruct (findall_item_match (n ++ LPAREN :: q ++ [RPAREN])
              [(1%nat, n ++ LPAREN :: q ++ [RPAREN])] [])
    as (item & _ & Et & ->).
  { apply (item_match_exact n q []); auto. }
  rewrite app_nil_r in Et. subst item.
  rewrite findall_item_nil. simpl.
  by rewrite entry_of_well_formed_item.
Qed.

Lemma X1_single_item_witness :
  parse_nutrients (Some (py " Tuky " ++ LPAREN :: py " 0,5 g" ++ [RPAREN]))
  = [(strip (py " Tuky "), strip (py " 0,5 g"))].
Proof.
  apply (X1_single_item (py " Tuky ") (py " 0,5 g"));
    [discriminate|not_in_text..].
Defined.

(** X2: a well-formed item followed by a comma contributes its entry, and
    the entries of the text after the comma follow: the parser works
    through a comma-separated list item by item. *)
Theorem X2_item_then_rest (n q rest : list N) :
  n ≠ [] → COMMA ∉ n → LPAREN ∉ n → LF ∉ n →
  LPAREN ∉ q → RPAREN ∉ q → LF ∉ q →
  parse_nutrients (Some (n ++ LPAREN :: q ++ RPAREN :: COMMA :: rest))
  = (strip n, strip q) :: parse_nutrients (Some rest).
Proof.
  intros Hn Hnc Hnp Hnl Hqp Hqr Hql.
  rewrite !parse_nutrients_fmap, !py_or_Some.
  destruct (findall_item_match
              (n ++ LPAREN :: q ++ RPAREN :: COMMA :: rest)
              [(1%nat, n ++ LPAREN :: q ++ [RPAREN])] (COMMA :: rest))
    as (item & _ & Et & ->).
  { apply (item_match_exact n q (COMMA :: rest)); eauto. }
  replace (n ++ LPAREN :: q ++ RPAREN :: COMMA :: rest)
    with ((n ++ LPAREN :: q ++ [RPAREN]) ++ COMMA :: rest) in Et
    by (by rewrite <- !app_assoc; simpl; rewrite <- app_assoc).
  apply app_inv_tail in Et. subst item.
  rewrite findall_item_nomatch by apply item_no_match_at_comma.
  rewrite fmap_cons. by rewrite entry_of_well_formed_item.
Qed.

Lemma X2_item_then_rest_witness :
  parse_nutrients
    (Some (py "Tuky" ++ LPAREN :: py "0,5 g" ++ RPAREN :: COMMA
             :: py " Sul(1 g)"))
  = (strip (py "Tuky"), strip (py "0,5 g"))
      :: parse_nutrients (Some (py " Sul(1 g)")).
Proof.
  apply (X2_item_then_rest (py "Tuky") (py "0,5 g") (py " Sul(1 g)"));
    [discriminate|not_in_text..].
Defined.

(** X3: a stretch of text without opening parenthesis that a comma ends
    is passed over without an entry and without an error; the result is
    that of the text after the comma. *)
Theorem X3_segment_without_parenthesis_dropped (junk rest : list N) :
  LPAREN ∉ junk →
  parse_nutrients (Some (junk ++ COMMA :: rest)) = parse_nutrients (Some rest).
Proof.
  intros Hj. rewrite !parse_nutrients_fmap, !py_or_Some.
  by rewrite findall_skip_junk.
Qed.

Lemma X3_segment_without_parenthesis_dropped_witness :
  parse_nutrients (Some (py "JustAName" ++ COMMA :: py " Tuky(0,5 g)"))
  = parse_nutrients (Some (py " Tuky(0,5 g)")).
Proof.
  apply (X3_segment_without_parenthesis_dropped (py "JustAName")).
  not_in_text.
Defined.

(** X4: a text without closing parenthesis, such as an item left open,
    yields no entry. *)
Theorem X4_no_closing_parenthesis_no_entry (x : option (list N)) :
  RPAREN ∉ py_or x [] → parse_nutrients x = [].
Proof.
  intros H. by rewrite parse_nutrients_fmap, findall_item_no_close.
Qed.

Lemma X4_no_closing_parenthesis_no_entry_witness :
  parse_nutrients (Some (py "Tuky(0,5 g, Sul(1 g")) = [].
Proof.
  apply (X4_no_closing_parenthesis_no_entry (Some (py "Tuky(0,5 g, Sul(1 g"))).
  not_in_text.
Defined.

(** X5: the parser only extracts: the name and the quantity of every
    entry are segments of the text, the name before the quantity. *)
Theorem X5_entries_are_segments (x : option (list N)) (name quantity : list N) :
  (name, quantity) ∈ parse_nutrients x →
  ∃ pre mid post, py_or x [] = pre ++ name ++ mid ++ quantity ++ post.
Proof.
  rewrite parse_nutrients_fmap. intros Hin.
  apply list_elem_of_fmap in Hin as (item & E & Hin).
  apply findall_item_elem in Hin as [_ (pre0 & post0 & ->)].
  destruct (strip_split item) as (l & r & Hitem & _).
  unfold entry_of_item in E.
  destruct (re_match NUTRIENT_NAME_AND_QTY_REGEX (strip item))
    as [[c rest]|] eqn:Em.
  - apply name_qty_match in Em as (g1 & g2 & Et & <- & <- & _).
    injection E as -> ->.
    destruct (strip_split (group 1 c)) as (l1 & r1 & H1 & _).
    destruct (strip_split (group 2 c)) as (l2 & r2 & H2 & _).
    exists (pre0 ++ l ++ l1), (r1 ++ LPAREN :: l2),
      (r2 ++ RPAREN :: rest ++ r ++ post0).
    rewrite Hitem, Et. rewrite H1 at 1. rewrite H2 at 1.
    repeat (rewrite <- ?app_assoc; cbn [app]; f_equal).
  - injection E as -> ->. exists (pre0 ++ l), [], (r ++ post0).
    rewrite Hitem at 1. simpl. by rewrite <- !app_assoc.
Qed.

Lemma X5_entries_are_segments_witness :
  ∃ pre mid post,
    py "Sul(1 g), Tuky(0,5 g)" = pre ++ py "Tuky" ++ mid ++ py "0,5 g" ++ post.
Proof.
  apply (X5_entries_are_segments (Some (py "Sul(1 g), Tuky(0,5 g)"))).
  vm_compute. right. by left.
Defined.

(** ** Further properties of the row expander and of the output *)

Section RowsAndRecords.

Implicit Types (product : gmap (list N) (list N)).

(** [build_row] reads the product only through [get] on the keys of the
    mapping. *)
Lemma build_row_agree product1 product2 nutrient_name quantity is_first_row :
  (∀ col key, (col, Some key) ∈ COLUMN_MAPPING →
              dict_get product1 key [] = dict_get product2 key []) →
  build_row product1 nutrient_name quantity is_first_row
  = build_row product2 nutrient_name quantity is_first_row.
Proof.
  intros Hagree. unfold build_row.
  assert (Hstep : ∀ l row,
            (∀ col, col ∈ l → col ∈ COLUMN_MAPPING) →
            foldl (set_column product1 nutrient_name quantity is_first_row)
              row l
            = foldl (set_column product2 nutrient_name quantity is_first_row)
                row l).
  { induction l as [|[csv_col json_key] l IH]; intros row Hl; [done|].
    cbn [foldl]. rewrite IH by (intros; apply Hl; by right).
    f_equal. rewrite !set_column_insert. f_equal.
    unfold column_value. cbn [fst snd].
    destruct is_first_row, json_key as [key|]; try reflexivity.
    change (default [] (Some key)) with key.
    rewrite (Hagree csv_col key); [done|]. apply Hl. by left. }
  by apply Hstep.
Qed.



End RowsAndRecords.

(** X6: the first row of every product carries the product's data: each
    mapped column holds the product's value for its key, the empty string
    when the product has no such key. *)
Theorem X6_first_row_carries_product (product : gmap (list N) (list N)) :
  ∃ row rest,
    build_rows_for_product product = row :: rest
    ∧ ∀ col key, (col, Some key) ∈ COLUMN_MAPPING →
                 row !! col = Some (dict_get product key []).
Proof.
  rewrite build_rows_for_product_unfold.
  destruct (parse_nutrients _) as [|e es].
  - exists (build_row product [] [] true), []. split; [reflexivity|].
    intros col key. apply build_row_first.
  - exists (build_row product e.1 e.2 true),
      ((λ e', build_row product e'.1 e'.2 false) <$> es).
    split; [reflexivity|]. intros col key. apply build_row_first.
Qed.

(** X7: the rows of a product depend on the product only through its
    nutrient field and the fields named in [COLUMN_MAPPING], each read
    with the empty string as default: two products that agree there, in
    particular two that differ in other keys or in a key being absent
    rather than empty, give the same rows. *)
Theorem X7_rows_depend_on_mapped_fields
    (product1 product2 : gmap (list N) (list N)) :
  dict_get product1 (py "Nutrient") [] = dict_get product2 (py "Nutrient") [] →
  (∀ col key, (col, Some key) ∈ COLUMN_MAPPING →
              dict_get product1 key [] = dict_get product2 key []) →
  build_rows_for_product product1 = build_rows_for_product product2.
Proof.
  intros Hn Hagree. rewrite !build_rows_for_product_unfold, Hn.
  destruct (parse_nutrients _) as [|e es].
  - f_equal. by apply build_row_agree.
  - apply (f_equal2 cons); [by apply build_row_agree|].
    apply list_fmap_ext. intros _ e' _. by apply build_row_agree.
Qed.

Lemma X7_rows_depend_on_mapped_fields_witness :
  build_rows_for_product
    (<[py "SKU" := py "123"]> (<[py "Internal note" := py "x"]> ∅))
  = build_rows_for_product
      (<[py "SKU" := py "123"]> (<[py "Kcal" := []]> ∅)).
Proof.
  apply X7_rows_depend_on_mapped_fields.
  - reflexivity.
  - intros col key H. apply list_elem_of_In in H.
    unfold COLUMN_MAPPING in H. cbn [In] in H.
    repeat (destruct H as [H|H];
            [first [discriminate H|injection H as <- <-; reflexivity]|]).
    destruct H.
Defined.

(** X8: the output is rectangular: every record written, the header
    included, has one cell per entry of [COLUMN_MAPPING]. *)
Theorem X8_records_have_all_columns
    (data : list (gmap (list N) (list N))) (record : list (list N)) :
  record ∈ convert_json_to_csv data →
  length record = length COLUMN_MAPPING.
Proof.
  unfold convert_json_to_csv. rewrite products_loop.
  intros [->|Hin]%elem_of_cons; [by rewrite length_fmap|].
  apply list_elem_of_bind in Hin as (product & Hin & _).
  apply list_elem_of_fmap in Hin as (row & -> & _).
  by rewrite !length_fmap.
Qed.

Lemma X8_records_have_all_columns_witness :
  length (replicate 20 (@nil N)) = length COLUMN_MAPPING.
Proof.
  apply (X8_records_have_all_columns [∅]).
  vm_compute. right. by left.
Defined.




(** ** Items have to be separated by commas *)

Section GreedyName.

Implicit Types (s t a b rest : list N).

Lemma bind_nil_elem {A B} (k : A → list B) (l : list A) (y : A) :
  l ≫= k = [] → y ∈ l → k y = [].
Proof.
  intros E Hy. destruct (k y) as [|z zs] eqn:Ek; [done|].
  assert (Hz : z ∈ l ≫= k).
  { apply list_elem_of_bind. exists y. split; [|done]. rewrite Ek. by left. }
  rewrite E in Hz. by apply elem_of_nil in Hz.
Qed.

(** The first way a greedy repetition followed by [k] succeeds: it gives
    back as little as it must, so [k] fails after every longer admissible
    prefix. *)
Lemma head_bind_greedy {B} cs min s (k : list N → list B) x :
  head (rep Greedy cs min s ≫= k) = Some x →
  ∃ a s', s = a ++ s'
          ∧ Forall (λ c, cs_match cs c = true) a
          ∧ head (k s') = Some x
          ∧ ∀ a2 s'', s' = a2 ++ s'' → a2 ≠ [] →
                      Forall (λ c, cs_match cs c = true) a2 → k s'' = [].
Proof.
  revert min. induction s as [|c t IH]; intros min; cbn [rep]; rewrite bind_app.
  - simpl. destruct min; simpl; [|done]. rewrite app_nil_r. intros H.
    exists [], []. split_and!; [done..|].
    intros a2 s'' E. by destruct a2.
  - destruct (cs_match cs c) eqn:Ec.
    + destruct (rep Greedy cs (pred min) t ≫= k) as [|y l] eqn:Emore.
      * cbn [app]. destruct min; [|done]. rewrite bind_singleton.
        intros H. exists [], (c :: t). split_and!; [done..|].
        intros [|c' a2] s'' E Hne Ha2; [done|]. simpl in E.
        injection E as <- ->. inversion_clear Ha2.
        apply (bind_nil_elem _ _ _ Emore).
        apply rep_complete; [done|lia].
      * rewrite <- Emore. intros H.
        assert (Hh : head (rep Greedy cs (pred min) t ≫= k) = Some x).
        { rewrite Emore in H |- *. done. }
        apply IH in Hh as (a & s' & -> & Ha & Hk & Hmax).
        exists (c :: a), s'. split_and!; [done|by constructor|done..].
    + cbn [mbind]. destruct min; [|done]. rewrite bind_singleton.
      simpl. intros H. exists [], (c :: t). split_and!; [done..|].
      intros [|c' a2] s'' E Hne Ha2; [done|]. simpl in E.
      injection E as <- ->. inversion_clear Ha2. congruence.
Qed.

Lemma run_Grp_Rep_Cat_whole n g min cs r2 t :
  run (Grp n (Cat (Rep g min cs) r2)) ([], t)
  = (λ st', ((n, take (length t - length st'.2) t) :: st'.1, st'.2))
      <$> (rep g cs min t ≫= λ s', run r2 ([], s')).
Proof. simpl. by rewrite list_fmap_bind. Qed.

(** After the name of an item: the parenthesised group is there. *)
Lemma after_item_name_complete b rest :
  RPAREN ∉ b →
  run (Cat (Lit LPAREN) (Cat (Rep Greedy 0 (NoneOf [RPAREN])) (Lit RPAREN)))
    ([], LPAREN :: b ++ RPAREN :: rest) ≠ [].
Proof.
  intros Hb E.
  assert (Hin : ([], rest)
                ∈ run (Cat (Lit LPAREN)
                         (Cat (Rep Greedy 0 (NoneOf [RPAREN])) (Lit RPAREN)))
                    ([], LPAREN :: b ++ RPAREN :: rest)).
  { apply elem_of_run_Cat. exists ([], b ++ RPAREN :: rest). split.
    - apply elem_of_run_Cat. exists ([], RPAREN :: rest). split.
      + by apply elem_of_run_Lit.
      + apply elem_of_run_Rep. split; [done|]. simpl.
        apply rep_complete; [by apply Forall_NoneOf1|lia].
    - by apply elem_of_run_Lit. }
  rewrite E in Hin. by apply elem_of_nil in Hin.
Qed.

(** In a text without comma nothing is found after the first item: its
    greedy first run has already reached the last parenthesised group. *)
Lemma item_match_last_without_comma s c rest :
  COMMA ∉ s →
  re_match NUTRIENT_ITEM_REGEX s = Some (c, rest) →
  findall NUTRIENT_ITEM_REGEX rest = [].
Proof.
  intros Hs E.
  destruct (findall NUTRIENT_ITEM_REGEX rest) as [|item' items'] eqn:Ef;
    [done|exfalso].
  assert (Hin : item' ∈ findall NUTRIENT_ITEM_REGEX rest)
    by (rewrite Ef; by left).
  apply findall_item_elem in Hin
    as [(a' & b' & -> & Ha' & _ & Hb') (pre & post & Erest)].
  unfold re_match, NUTRIENT_ITEM_REGEX in E.
  rewrite run_Grp_Rep_Cat_whole in E.
  destruct (rep Greedy (NoneOf [COMMA]) 1 s ≫= _) as [|[k0 s0] l] eqn:Eb;
    [done|].
  simpl in E. injection E as _ ->.
  assert (Hh : head (rep Greedy (NoneOf [COMMA]) 1 s
                       ≫= λ s',
                           run (Cat (Lit LPAREN)
                                  (Cat (Rep Greedy 0 (NoneOf [RPAREN]))
                                       (Lit RPAREN))) ([], s'))
               = Some (k0, rest)) by (by rewrite Eb).
  apply head_bind_greedy in Hh as (a & s' & -> & _ & Hk & Hmax).
  apply head_Some_elem_of, run_suffix in Hk as (mid & Hmid). simpl in Hmid.
  apply (after_item_name_complete b' post Hb').
  apply (Hmax (mid ++ pre ++ a')).
  - rewrite Hmid, Erest. rewrite <- !app_assoc. cbn [app].
    by rewrite <- !app_assoc.
  - intros Hnil. apply app_eq_nil in Hnil as [_ Hnil].
    by apply app_eq_nil in Hnil as [_ ->].
  - apply Forall_NoneOf1. intros Hin. apply Hs.
    rewrite Hmid, Erest. set_solver.
Qed.

Lemma findall_at_most_one_without_comma s :
  COMMA ∉ s → (length (findall NUTRIENT_ITEM_REGEX s) ≤ 1)%nat.
Proof.
  induction s as [|x t IH]; intros Hs; [simpl; lia|].
  destruct (re_match NUTRIENT_ITEM_REGEX (x :: t)) as [[c rest]|] eqn:E.
  - destruct (findall_item_match _ _ _ E) as (item & _ & _ & ->).
    by rewrite (item_match_last_without_comma _ _ _ Hs E).
  - rewrite (findall_item_nomatch _ _ E). apply IH.
    by apply not_elem_of_cons in Hs as [_ ?].
Qed.

End GreedyName.

(** X12: items have to be separated by commas: from a text without comma
    at most one entry is parsed, however many parenthesised groups it
    holds (the groups of a list separated by line feeds or spaces alone
    are not told apart). *)
Theorem X12_at_most_one_entry_without_comma (x : option (list N)) :
  COMMA ∉ py_or x [] → (length (parse_nutrients x) ≤ 1)%nat.
Proof.
  intros H. rewrite parse_nutrients_fmap, length_fmap.
  by apply findall_at_most_one_without_comma.
Qed.

Lemma X12_at_most_one_entry_without_comma_witness :
  (length (parse_nutrients (Some (py "Tuky(1 g)" ++ LF :: py "Sul(2 g)")))
   ≤ 1)%nat.
Proof.
  apply (X12_at_most_one_entry_without_comma
           (Some (py "Tuky(1 g)" ++ LF :: py "Sul(2 g)"))).
  not_in_text.
Defined.
